(** * Store-name scraper: normalisation, filtering, deduplication, merging

    A shallow embedding of the decision logic of
    [westfield_scraper.py], [webscraper_jan.py] and
    [export_westfield_to_excel.py], and the properties of it that the
    design document states.

    A Python [str] is a sequence of Unicode code points and is modelled
    as [list N].  The Unicode character database and the case tables of
    the [re] module are not part of the repository: they are the class
    [Unicode], a parameter of every definition.  The instance [latin1]
    gives the tables on U+0000..U+00FF, which is where the concrete
    inputs of this file live. *)

From Stdlib Require Import NArith Ascii String DecimalString.
From stdpp Require Import base list sorting gmap.

Local Open Scope list_scope.

(** ** Strings *)

Abbreviation pystr := (list N) (only parsing).

Fixpoint bytes_of (s : string) : list N :=
  match s with
  | EmptyString => []
  | String a s' => N_of_ascii a :: bytes_of s'
  end.

(** UTF-8 decoding, so that literals read as they do in the source. *)
Fixpoint utf8 (bs : list N) : pystr :=
  match bs with
  | [] => []
  | b :: tl =>
      if (b <? 128)%N then b :: utf8 tl
      else if (b <? 224)%N then
        match tl with
        | c :: tl1 => ((b - 192) * 64 + (c - 128))%N :: utf8 tl1
        | _ => []
        end
      else if (b <? 240)%N then
        match tl with
        | c :: d :: tl2 =>
            ((b - 224) * 4096 + (c - 128) * 64 + (d - 128))%N :: utf8 tl2
        | _ => []
        end
      else
        match tl with
        | c :: d :: e :: tl3 =>
            ((b - 240) * 262144 + (c - 128) * 4096 + (d - 128) * 64
             + (e - 128))%N :: utf8 tl3
        | _ => []
        end
  end.

Definition u (s : string) : pystr := utf8 (bytes_of s).

(** ** The Unicode tables *)

Class Unicode := {
  (** [Py_UNICODE_ISSPACE]: [str.isspace], [str.strip] and [\s]. *)
  isspace : N → bool;
  (** [Py_UNICODE_ISDECIMAL]: [\d]. *)
  isdecimal : N → bool;
  (** [Py_UNICODE_ISALNUM]: with the underscore, [\w] and so [\b]. *)
  isalnum : N → bool;
  (** Simple case mappings, [_sre.unicode_tolower] and its converse. *)
  tolower : N → N;
  toupper : N → N;
  (** [sre_compile._ignorecase_fixes]: the other members of the class of
      characters that are equal under IGNORECASE although their lower case
      differs. *)
  ignorecase_fixes : N → list N;
  (** [str.lower]. *)
  str_lower : pystr → pystr;
}.

Section Core.
Context {U : Unicode}.

(** *** [str.strip] *)

Fixpoint lstrip (s : pystr) : pystr :=
  match s with
  | [] => []
  | c :: tl => if isspace c then lstrip tl else s
  end.

Definition rstrip (s : pystr) : pystr := reverse (lstrip (reverse s)).

Definition strip (s : pystr) : pystr := rstrip (lstrip s).

(** *** [k in s] on strings *)

Fixpoint startswith (k s : pystr) : bool :=
  match k, s with
  | [], _ => true
  | _ :: _, [] => false
  | a :: k', b :: s' => (a =? b)%N && startswith k' s'
  end.

Fixpoint contains (k s : pystr) : bool :=
  startswith k s ||
  match s with
  | [] => false
  | _ :: tl => contains k tl
  end.

(** ** Regular expressions

    The parsed form of a pattern, with the operators of [sre_parse].  A
    repeat is over a one-character body, which is all the patterns of the
    repository use (the engine's REPEAT_ONE and MIN_REPEAT_ONE). *)

Inductive category := CATEGORY_SPACE | CATEGORY_DIGIT.

Inductive set_item :=
| SLit (c : N)
| SCat (c : category).

Inductive chr :=
| LITERAL (c : N)
| ANY
| IN (negate : bool) (items : list set_item).

Inductive at_code := AT_BEGINNING | AT_END | AT_BOUNDARY.

Inductive regex :=
| Chr (c : chr)
| REPEAT (lo : nat) (hi : option nat) (greedy : bool) (c : chr)
| AT (a : at_code)
| Seq (r1 r2 : regex)
| BRANCH (r1 r2 : regex)
| SUBPATTERN (g : nat) (r : regex)
| GROUPREF (g : nat)
| Empty.

(** A compiled pattern: the IGNORECASE flag and the parsed expression. *)
Record pattern := Pattern { ignorecase : bool; body : regex }.

(** *** One character *)

Definition iscased (c : N) : bool :=
  negb (c =? tolower c)%N || negb (c =? toupper c)%N.

Definition mem (c : N) (l : list N) : bool := existsb (N.eqb c) l.

Definition category_match (c : category) (ch : N) : bool :=
  match c with
  | CATEGORY_SPACE => isspace ch
  | CATEGORY_DIGIT => isdecimal ch
  end.

Definition item_match (ic : bool) (it : set_item) (ch : N) : bool :=
  match it with
  | SLit av =>
      if ic then let lo := tolower av in mem ch (lo :: ignorecase_fixes lo)
      else (ch =? av)%N
  | SCat c => category_match c ch
  end.

Definition item_cased (it : set_item) : bool :=
  match it with
  | SLit av => iscased av
  | SCat _ => false
  end.

Definition chr_match (ic : bool) (c : chr) (ch : N) : bool :=
  match c with
  | LITERAL av =>
      if ic && iscased av
      then let lo := tolower av in mem (tolower ch) (lo :: ignorecase_fixes lo)
      else (ch =? av)%N
  | ANY => negb (ch =? 10)%N
  | IN negate items =>
      let x := if ic && existsb item_cased items then tolower ch else ch in
      xorb negate (existsb (fun it => item_match ic it x) items)
  end.

(** *** Assertions *)

Definition is_word (ch : N) : bool := isalnum ch || (ch =? 95)%N.

Definition word_at (o : option N) : bool :=
  match o with
  | Some ch => is_word ch
  | None => false
  end.

Definition at_match (a : at_code) (prev : option N) (rest : pystr) : bool :=
  match a with
  | AT_BEGINNING => match prev with None => true | Some _ => false end
  | AT_END =>
      match rest with
      | [] => true
      | [ch] => (ch =? 10)%N
      | _ => false
      end
  | AT_BOUNDARY => xorb (word_at prev) (word_at (head rest))
  end.

(** *** The backtracking matcher

    A position is the character before it ([None] at the start of the
    string) and the text after it.  The matcher is in continuation-passing
    style: [k] receives the position and the groups when the expression has
    matched, and a [None] from it makes the expression try its next way to
    match. *)

Definition groups := list (nat * pystr).

Definition result := option (pystr * groups).

Definition cont := option N → pystr → groups → result.

Fixpoint group_lookup (g : nat) (e : groups) : option pystr :=
  match e with
  | [] => None
  | (g1, w) :: e' => if Nat.eqb g1 g then Some w else group_lookup g e'
  end.

Definition orelse (a b : result) : result :=
  match a with
  | Some x => Some x
  | None => b
  end.

Definition hi_open (hi : option nat) : bool :=
  match hi with
  | Some O => false
  | _ => true
  end.

(** Greedy repeat: take as many as possible, then give back one by one. *)
Fixpoint rep_max (ic : bool) (c : chr) (lo : nat) (hi : option nat)
    (prev : option N) (rest : pystr) (e : groups) (k : cont) : result :=
  let stop := match lo with O => k prev rest e | S _ => None end in
  match rest with
  | ch :: tl =>
      if chr_match ic c ch && hi_open hi
      then orelse (rep_max ic c (pred lo) (pred <$> hi) (Some ch) tl e k) stop
      else stop
  | [] => stop
  end.

(** Lazy repeat: take as few as possible, then one more at a time. *)
Fixpoint rep_min (ic : bool) (c : chr) (lo : nat) (hi : option nat)
    (prev : option N) (rest : pystr) (e : groups) (k : cont) : result :=
  let stop := match lo with O => k prev rest e | S _ => None end in
  match rest with
  | ch :: tl =>
      if chr_match ic c ch && hi_open hi
      then orelse stop (rep_min ic c (pred lo) (pred <$> hi) (Some ch) tl e k)
      else stop
  | [] => stop
  end.

(** A back-reference compares character by character, lower-cased under
    IGNORECASE. *)
Fixpoint ref_match (ic : bool) (w : pystr) (prev : option N) (rest : pystr)
    : option (option N * pystr) :=
  match w with
  | [] => Some (prev, rest)
  | a :: w' =>
      match rest with
      | ch :: tl =>
          if (if ic then (tolower ch =? tolower a)%N else (ch =? a)%N)
          then ref_match ic w' (Some ch) tl
          else None
      | [] => None
      end
  end.

Fixpoint rmatch (ic : bool) (r : regex) (prev : option N) (rest : pystr)
    (e : groups) (k : cont) : result :=
  match r with
  | Chr c =>
      match rest with
      | ch :: tl => if chr_match ic c ch then k (Some ch) tl e else None
      | [] => None
      end
  | REPEAT lo hi greedy c =>
      if greedy then rep_max ic c lo hi prev rest e k
      else rep_min ic c lo hi prev rest e k
  | AT a => if at_match a prev rest then k prev rest e else None
  | Seq r1 r2 =>
      rmatch ic r1 prev rest e (fun p1 s1 e1 => rmatch ic r2 p1 s1 e1 k)
  | BRANCH r1 r2 =>
      orelse (rmatch ic r1 prev rest e k) (rmatch ic r2 prev rest e k)
  | SUBPATTERN g r1 =>
      rmatch ic r1 prev rest e (fun p1 s1 e1 =>
        k p1 s1 ((g, take (length rest - length s1) rest) :: e1))
  | GROUPREF g =>
      match group_lookup g e with
      | Some w =>
          match ref_match ic w prev rest with
          | Some (p1, s1) => k p1 s1 e
          | None => None
          end
      | None => None
      end
  | Empty => k prev rest e
  end.

(** One match attempt at a position: the length of the match and its
    groups.  With [must_advance] an empty match is refused, as the engine
    does right after an empty match. *)
Definition match_here (p : pattern) (must_advance : bool)
    (prev : option N) (rest : pystr) : option (nat * groups) :=
  match rmatch (ignorecase p) (body p) prev rest []
          (fun _ s1 e1 =>
             if must_advance && Nat.eqb (length s1) (length rest)
             then None else Some (s1, e1)) with
  | Some (s1, e1) => Some (length rest - length s1, e1)
  | None => None
  end.

(** [re.match(pattern, string)]: the groups of a match at the start. *)
Definition re_match (p : pattern) (s : pystr) : option groups :=
  snd <$> match_here p false None s.

(** [re.search(pattern, string)] from a position on: does any position
    match. *)
Fixpoint search_from (p : pattern) (prev : option N) (rest : pystr) : bool :=
  match match_here p false prev rest with
  | Some _ => true
  | None =>
      match rest with
      | [] => false
      | ch :: tl => search_from p (Some ch) tl
      end
  end.

Definition re_search (p : pattern) (s : pystr) : bool := search_from p None s.

(** [re.sub(pattern, repl, string)] for a replacement without group
    references: the leftmost matches, none overlapping, each replaced by
    [repl].  [skip] counts the characters of the current match that are
    still to be passed over. *)
Fixpoint sub_from (p : pattern) (repl : pystr) (skip : nat)
    (prev : option N) (rest : pystr) : pystr :=
  let next (n : nat) (copy : bool) : pystr :=
    match rest with
    | [] => []
    | ch :: tl => (if copy then [ch] else []) ++ sub_from p repl n (Some ch) tl
    end in
  match skip with
  | S n => next n false
  | O =>
      match match_here p false prev rest with
      | Some (S n, _) => repl ++ next n false
      | Some (O, _) =>
          repl ++
          match match_here p true prev rest with
          | Some (S n, _) => repl ++ next n false
          | _ => next O true
          end
      | None => next O true
      end
  end.

Definition re_sub (p : pattern) (repl s : pystr) : pystr :=
  sub_from p repl O None s.

End Core.

(** ** More of [str]

    [s.replace(old, new)]: the occurrences of [old] from the left, none
    overlapping; [skip] counts the characters of the current occurrence that
    are still to be passed over.  With an empty [old], [new] goes before
    every character and at the end. *)
Fixpoint replace_from (old new : pystr) (skip : nat) (s : pystr) : pystr :=
  match s with
  | [] => []
  | c :: tl =>
      match skip with
      | S n => replace_from old new n tl
      | O =>
          if startswith old s
          then new ++ replace_from old new (length old - 1) tl
          else c :: replace_from old new 0 tl
      end
  end.

Definition replace (old new s : pystr) : pystr :=
  match old with
  | [] => new ++ flat_map (fun c => c :: new) s
  | _ => replace_from old new 0 s
  end.

(** [s.strip(chars)] *)
Fixpoint lstrip_chars (chars s : pystr) : pystr :=
  match s with
  | [] => []
  | c :: tl => if mem c chars then lstrip_chars chars tl else s
  end.

Definition strip_chars (chars s : pystr) : pystr :=
  reverse (lstrip_chars chars (reverse (lstrip_chars chars s))).

(** [a <= b] on strings: by code point, a proper prefix first. *)
Fixpoint str_le (a b : pystr) : bool :=
  match a, b with
  | [], _ => true
  | _ :: _, [] => false
  | x :: a', y :: b' =>
      if (x <? y)%N then true
      else if (x =? y)%N then str_le a' b'
      else false
  end.



(** ** The patterns of the two scrapers *)

Definition ord (s : string) : N := default 0%N (head (u s)).

Fixpoint lit (s : pystr) : regex :=
  match s with
  | [] => Empty
  | c :: tl => Seq (Chr (LITERAL c)) (lit tl)
  end.

Fixpoint seq (rs : list regex) : regex :=
  match rs with
  | [] => Empty
  | r :: tl => Seq r (seq tl)
  end.

Fixpoint alt (r : regex) (rs : list regex) : regex :=
  match rs with
  | [] => r
  | r1 :: tl => BRANCH r (alt r1 tl)
  end.

Definition word (s : string) : regex := lit (u s).
Definition space : chr := IN false [SCat CATEGORY_SPACE].
Definition digit : chr := IN false [SCat CATEGORY_DIGIT].
Definition star (c : chr) : regex := REPEAT 0 None true c.
Definition plus (c : chr) : regex := REPEAT 1 None true c.
Definition opt (c : chr) : regex := REPEAT 0 (Some 1) true c.
Definition plus_lazy (c : chr) : regex := REPEAT 1 None false c.

(** [r"\s*\([^)]*\)"] *)
Definition RE_PARENS : pattern :=
  Pattern false
    (seq [star space; Chr (LITERAL (ord "(")); star (IN true [SLit (ord ")")]);
          Chr (LITERAL (ord ")"))]).

(** [r"\b[Pp]lan\s*\d+\b"] *)
Definition RE_PLAN_NUM : pattern :=
  Pattern false
    (seq [AT AT_BOUNDARY; Chr (IN false [SLit (ord "P"); SLit (ord "p")]);
          word "lan"; star space; plus digit; AT AT_BOUNDARY]).

(** [r"(?i)\b(stäng[ta]?|stänger|stängt|öppet|stängd)\b"] *)
Definition RE_STATUS : pattern :=
  Pattern true
    (seq [AT AT_BOUNDARY;
          SUBPATTERN 1
            (alt (Seq (word "stäng") (opt (IN false [SLit (ord "t"); SLit (ord "a")])))
                 [word "stänger"; word "stängt"; word "öppet"; word "stängd"]);
          AT AT_BOUNDARY]).

(** [r"[-–—].*$"] *)
Definition RE_DASH : pattern :=
  Pattern false
    (seq [Chr (IN false [SLit (ord "-"); SLit (ord "–"); SLit (ord "—")]);
          star ANY; AT AT_END]).

(** [r"(?i)^(butik|butiker|shop)[:\s-]+"] *)
Definition RE_LABEL : pattern :=
  Pattern true
    (seq [AT AT_BEGINNING;
          SUBPATTERN 1 (alt (word "butik") [word "butiker"; word "shop"]);
          plus (IN false [SLit (ord ":"); SCat CATEGORY_SPACE; SLit (ord "-")])]).

(** [r"\s+"] *)
Definition RE_SPACES : pattern := Pattern false (plus space).

(** [r"(?i)\bplan\b"] *)
Definition RE_PLAN : pattern :=
  Pattern true (seq [AT AT_BOUNDARY; word "plan"; AT AT_BOUNDARY]).

(** [r"\s*\|.*$"] *)
Definition RE_PIPE : pattern :=
  Pattern false (seq [star space; Chr (LITERAL (ord "|")); star ANY; AT AT_END]).

(** [r"(?i)\b(?:gatuplan|övre|nedre)\b.*$"] *)
Definition RE_LOCATION : pattern :=
  Pattern true
    (seq [AT AT_BOUNDARY; alt (word "gatuplan") [word "övre"; word "nedre"];
          AT AT_BOUNDARY; star ANY; AT AT_END]).

(** [r"(?i)\b(?:hamngatan|postgatan|köpmansgatan|spannmålsgatan|nordstadstorget|lilla klädpressaregatan)\b.*$"] *)
Definition RE_STREET : pattern :=
  Pattern true
    (seq [AT AT_BOUNDARY;
          alt (word "hamngatan")
              [word "postgatan"; word "köpmansgatan"; word "spannmålsgatan";
               word "nordstadstorget"; word "lilla klädpressaregatan"];
          AT AT_BOUNDARY; star ANY; AT AT_END]).

(** [r"[\s,/-]*\d+\s*$"] *)
Definition RE_NUMBER : pattern :=
  Pattern false
    (seq [star (IN false [SCat CATEGORY_SPACE; SLit (ord ","); SLit (ord "/");
                          SLit (ord "-")]);
          plus digit; star space; AT AT_END]).

(** [r"^(?P<x>.+?)\s+\1$"] with [flags=re.IGNORECASE] *)
Definition RE_HALVES : pattern :=
  Pattern true
    (seq [AT AT_BEGINNING; SUBPATTERN 1 (plus_lazy ANY); plus space;
          GROUPREF 1; AT AT_END]).

(** [m.group("x")]: the group takes part in every match of [RE_HALVES]. *)
Definition group_x (m : groups) : pystr := default [] (group_lookup 1 m).

(** The members of a range of a set, [n] characters from [lo] on. *)
Fixpoint range_items (lo : N) (n : nat) : list set_item :=
  match n with
  | O => []
  | S k => SLit lo :: range_items (lo + 1) k
  end.

(** [r"[^a-z0-9]+"], each range standing for its members *)
Definition RE_SLUG : pattern :=
  Pattern false
    (plus (IN true (range_items (ord "a") 26 ++ range_items (ord "0") 10))).

(** ** Candidate extraction: [extract_store_links] and [extract_store_names_from_page]

    The page provider is outside the repository.  A page is what its two
    queries return; an element answers [inner_text()] and
    [get_attribute("href")] with a string, with [None], or by raising. *)

Inductive outcome (A : Type) :=
| Value (a : A)
| Exception.
Arguments Value {A} a.
Arguments Exception {A}.

#[export] Instance outcome_ret : MRet outcome := fun A a => Value a.
#[export] Instance outcome_bind : MBind outcome := fun A B f m =>
  match m with
  | Value a => f a
  | Exception => Exception
  end.

(** [for x in xs: st = step(st, x)], stopping at the first exception. *)
Fixpoint for_each {A S : Type} (step : S → A → outcome S) (st : S)
    (xs : list A) : outcome S :=
  match xs with
  | [] => Value st
  | x :: tl => st1 ← step st x; for_each step st1 tl
  end.

Record element := Element {
  inner_text : outcome (option pystr);
  get_attribute_href : outcome (option pystr);
}.

Record page := Page {
  (** [page.query_selector_all("a")] *)
  anchors : list element;
  (** [page.query_selector_all("[class*='store'], [class*='butik'], [class*='shop']")] *)
  candidates : list element;
  (** [page.title()] *)
  title : outcome pystr;
}.

(** [x or ""] *)
Definition or_empty (o : option pystr) : pystr := default [] o.

Definition heuristics : list pystr :=
  [u "/butik"; u "/butiker"; u "/store"; u "/shop"; u "/shops"].

Definition text_keywords : list pystr := [u "butik"; u "store"; u "shop"].

Section Extract.
Context {U : Unicode}.
Variable clean_store_name : pystr → pystr.

(** [any(k in s for k in ks)] *)
Definition any_in (ks : list pystr) (s : pystr) : bool :=
  existsb (fun k => contains k s) ks.

(** The two tests of the loop body on the trimmed text and the href. *)
Definition candidate_filter (text href : pystr) : bool :=
  if bool_decide (text = []) || (length text <? 2) then false
  else any_in heuristics (str_lower href) || any_in text_keywords (str_lower text).

(** The accumulators [names] and [seen]. *)
Definition acc : Type := list pystr * gset pystr.

(** [if cleaned and cleaned not in seen: names.append(cleaned); seen.add(cleaned)] *)
Definition add_name (st : acc) (cleaned : pystr) : acc :=
  if bool_decide (cleaned ≠ []) && bool_decide (cleaned ∉ st.2)
  then (st.1 ++ [cleaned], st.2 ∪ {[cleaned]})
  else st.

Definition anchor_step (st : acc) (a : element) : outcome acc :=
  match (text ← inner_text a; href ← get_attribute_href a;
         mret (strip (or_empty text), or_empty href)) with
  | Exception => Value st
  | Value (text, href) =>
      if candidate_filter text href
      then Value (add_name st (clean_store_name text))
      else Value st
  end.

Definition fallback_step (st : acc) (el : element) : outcome acc :=
  match (text ← inner_text el; mret (strip (or_empty text))) with
  | Exception => Value st
  | Value text => Value (add_name st (clean_store_name text))
  end.

Definition extract_names (pg : page) : outcome (list pystr) :=
  st ← for_each anchor_step ([], ∅) (anchors pg);
  st ← (match st.1 with
        | [] => for_each fallback_step st (candidates pg)
        | _ => Value st
        end);
  mret st.1.

End Extract.

(** *** The function with its two page queries

    [page.query_selector_all] is not inside a [try]: when it raises, so
    does the extraction.  The second query is made only when the anchors
    gave no name. *)
Record live_page := LivePage {
  (** [page.query_selector_all("a")] *)
  query_anchors : outcome (list element);
  (** [page.query_selector_all("[class*='store'], [class*='butik'], [class*='shop']")] *)
  query_candidates : outcome (list element);
  (** [page.title()] *)
  live_title : outcome pystr;
}.

Section ExtractLive.
Context {U : Unicode}.
Variable clean_store_name : pystr → pystr.

Definition extract_names_live (lp : live_page) : outcome (list pystr) :=
  anchors ← query_anchors lp;
  st ← for_each (anchor_step clean_store_name) ([], ∅) anchors;
  st ← (match st.1 with
        | [] =>
            candidates ← query_candidates lp;
            for_each (fallback_step clean_store_name) st candidates
        | _ => Value st
        end);
  mret st.1.

End ExtractLive.

(** ** [westfield_scraper.py] *)

Module westfield_scraper.
Section WithUnicode.
Context {U : Unicode}.

Definition clean_store_name (raw : pystr) : pystr :=
  match raw with
  | [] => []
  | _ =>
      let s := strip raw in
      let s := re_sub RE_PARENS [] s in
      let s := re_sub RE_PLAN_NUM [] s in
      let s := re_sub RE_STATUS [] s in
      let s := re_sub RE_DASH [] s in
      let s := re_sub RE_LABEL [] s in
      let s := re_sub RE_SPACES (u " ") s in
      let s := strip s in
      let s := strip (re_sub RE_PLAN [] s) in
      let s := re_sub RE_PIPE [] s in
      let s := re_sub RE_LOCATION [] s in
      let s := re_sub RE_STREET [] s in
      let s := re_sub RE_NUMBER [] s in
      match re_match RE_HALVES s with
      | Some m => strip (group_x m)
      | None => s
      end
  end.



Definition extract_store_links : page → outcome (list pystr) :=
  extract_names clean_store_name.

(** [extract_store_links] with the queries it makes. *)
Definition extract_store_links_live : live_page → outcome (list pystr) :=
  extract_names_live clean_store_name.

(** A configured URL: its host name and the page it renders to. *)
Record site := Site { netloc : pystr; pg : page }.

Definition stop_headers : gset pystr := {[ u "butik"; u "butiker" ]}.

(** Lines 107-116 of [main]: the exact-match pass, then the header filter. *)
Definition dedup_step (st : acc) (n : pystr) : acc :=
  if bool_decide (n ∉ st.2) then (st.1 ++ [n], st.2 ∪ {[n]}) else st.

Definition per_unique (names : list pystr) : list pystr :=
  let per_unique := (foldl dedup_step ([], ∅) names).1 in
  filter (fun x => x ≠ [] ∧ str_lower (strip x) ∉ stop_headers) per_unique.

Definition site_title (s : site) : pystr :=
  let t := match title (pg s) with
           | Value t => strip t
           | Exception => netloc s
           end in
  match t with
  | [] => netloc s
  | _ => t
  end.

(** [str(i)] *)
Definition decimal (i : nat) : pystr :=
  u (NilEmpty.string_of_uint (Nat.to_uint i)).

(** The lines one site adds to [merged_display]. *)
Definition display_lines (site_title : pystr) (names : list pystr)
    : list pystr :=
  (u "== " ++ site_title ++ u " ==")
  :: imap (fun i nm => decimal (S i) ++ u ". " ++ nm) names.

(** The loop of [main]: the per-URL files and [merged_display]. *)
Definition main_step (st : list (list pystr) * list pystr) (url : site)
    : outcome (list (list pystr) * list pystr) :=
  names ← extract_store_links (pg url);
  let per := per_unique names in
  mret (st.1 ++ [per], st.2 ++ display_lines (site_title url) per).

Definition main (urls : list site)
    : outcome (list (list pystr) * list pystr) :=
  for_each main_step ([], []) urls.

(** The name of the per-URL file, from [parsed.netloc] and [parsed.path]
    of the URL. *)
Definition slug (netloc path : pystr) : pystr :=
  let slug_base := str_lower (netloc ++ path) in
  strip_chars (u "_") (re_sub RE_SLUG (u "_") slug_base).

Definition per_filename (slug : pystr) : pystr :=
  u "westfield_stores_" ++ slug ++ u ".json".

End WithUnicode.
End westfield_scraper.

(** ** [webscraper_jan.py] *)

Module webscraper_jan.
Section WithUnicode.
Context {U : Unicode}.

Definition clean_store_name (raw : pystr) : pystr :=
  match raw with
  | [] => []
  | _ =>
      let s := strip raw in
      let s := re_sub RE_PARENS [] s in
      let s := re_sub RE_PLAN_NUM [] s in
      let s := re_sub RE_STATUS [] s in
      let s := re_sub RE_DASH [] s in
      let s := re_sub RE_LABEL [] s in
      let s := strip (re_sub RE_SPACES (u " ") s) in
      let s := strip (re_sub RE_PLAN [] s) in
      match re_match RE_HALVES s with
      | Some m => strip (group_x m)
      | None => s
      end
  end.



Definition extract_store_names_from_page : page → outcome (list pystr) :=
  extract_names clean_store_name.

(** [extract_store_names_from_page] with the queries it makes. *)
Definition extract_store_names_from_page_live
    : live_page → outcome (list pystr) :=
  extract_names_live clean_store_name.




(** An entry of [results]. *)
Record scraped := Scraped { url : pystr; mall : pystr; stores : list pystr }.







(** [write_output_text]: the text written, and the flag [first]. *)
Definition write_step (st : pystr * bool) (r : scraped) : pystr * bool :=
  let '(f, first) := st in
  let f := if first then f
           else f ++ [10%N] ++ (mall r ++ [10%N]) ++ [10%N] in
  let f := foldl (fun f s => f ++ (s ++ [10%N])) f (stores r) in
  (f, false).

Definition write_output_text (results : list scraped) : pystr :=
  (foldl write_step ([], true) results).1.

Definition URL_DEFAULT : pystr :=
  u "https://www.westfield.com/sv/sweden/mallofscandinavia/butiker".

(** The URL list of [main]: the lines of the file of [--file], when
    given, then the positional URLs, and the default when there is none. *)
Definition main_urls (file : option (list pystr)) (args_urls : list pystr)
    : list pystr :=
  let urls :=
    match file with
    | Some fh =>
        foldl (fun urls line =>
                 match strip line with
                 | [] => urls
                 | line => urls ++ [line]
                 end) [] fh
    | None => []
    end in
  let urls := match args_urls with [] => urls | _ => urls ++ args_urls end in
  match urls with
  | [] => [URL_DEFAULT]
  | _ => urls
  end.

End WithUnicode.
End webscraper_jan.

(** ** [export_westfield_to_excel.py] *)

Module export_westfield_to_excel.
Section WithUnicode.
Context {U : Unicode}.

(** A per-source file: the slug of its name and what [json.load] gives. *)
Record json_file := JsonFile { slug : pystr; load : outcome (list pystr) }.

(** [merged_rows]: a file that cannot be read is passed over. *)
Definition rows_of (jf : json_file) : list (pystr * pystr) :=
  match load jf with
  | Value data => map (fun store => (slug jf, store)) data
  | Exception => []
  end.

Definition merged_rows (json_files : list json_file) : list (pystr * pystr) :=
  concat (map rows_of json_files).

Definition unique_step (st : list (pystr * pystr) * gset pystr)
    (row : pystr * pystr) : list (pystr * pystr) * gset pystr :=
  let '(src, store) := row in
  let key := str_lower (strip store) in
  if bool_decide (key ≠ []) && bool_decide (key ∉ st.2)
  then (st.1 ++ [(store, src)], st.2 ∪ {[key]})
  else st.

(** The rows of the sheet [unique]. *)
Definition dedup (merged_rows : list (pystr * pystr)) : list (pystr * pystr) :=
  (foldl unique_step ([], ∅) merged_rows).1.

Definition safe_sheet_name (name : pystr) : pystr :=
  let s := take 31 name in
  foldl (fun s ch => replace [ch] (u "_") s) s
    [92%N (* the backslash *); ord "/"; ord "?"; ord "*"; ord "["; ord "]";
     ord ":"].

(** [fname.replace('westfield_stores_', '').replace('.json', '')] *)
Definition slug_of_fname (fname : pystr) : pystr :=
  replace (u ".json") [] (replace (u "westfield_stores_") [] fname).



End WithUnicode.
End export_westfield_to_excel.

(** ** The tables on the Latin-1 block

    Exact on U+0000..U+00FF; the white space is exact everywhere.  Beyond
    U+00FF a character is taken as caseless and neither letter nor digit,
    which is true of the dashes of [RE_DASH]. *)

Definition between (lo hi c : N) : bool := ((lo <=? c) && (c <=? hi))%N.

Definition latin1_isspace (c : N) : bool :=
  between 9 13 c || between 28 32 c || (c =? 133)%N || (c =? 160)%N
  || (c =? 5760)%N || between 8192 8202 c || (c =? 8232)%N || (c =? 8233)%N
  || (c =? 8239)%N || (c =? 8287)%N || (c =? 12288)%N.

Definition latin1_isdecimal (c : N) : bool := between 48 57 c.

Definition latin1_isalnum (c : N) : bool :=
  between 48 57 c || between 65 90 c || between 97 122 c
  || (c =? 170)%N || (c =? 178)%N || (c =? 179)%N || (c =? 181)%N
  || (c =? 185)%N || (c =? 186)%N || between 188 190 c
  || between 192 214 c || between 216 246 c || between 248 255 c.

Definition latin1_tolower (c : N) : N :=
  if between 65 90 c || between 192 214 c || between 216 222 c
  then (c + 32)%N else c.

Definition latin1_toupper (c : N) : N :=
  if between 97 122 c || between 224 246 c || between 248 254 c
  then (c - 32)%N
  else if (c =? 181)%N then 924%N
  else if (c =? 255)%N then 376%N
  else c.

Definition latin1_fixes (c : N) : list N :=
  if (c =? 105)%N then [305%N]
  else if (c =? 115)%N then [383%N]
  else if (c =? 181)%N then [956%N]
  else [].

#[export] Instance latin1 : Unicode := {|
  isspace := latin1_isspace;
  isdecimal := latin1_isdecimal;
  isalnum := latin1_isalnum;
  tolower := latin1_tolower;
  toupper := latin1_toupper;
  ignorecase_fixes := latin1_fixes;
  str_lower := (map latin1_tolower);
|}.


(** ** Notions used in the statements *)

(** [k] occurs in [s] as a contiguous run. *)
Definition substring (k s : pystr) : Prop := ∃ pre post, s = pre ++ k ++ post.

(** The elements of [out] come in the order in which they first occur in
    [l]: each one occurs in [l], and nothing that follows it in [out] occurs
    in [l] before its first occurrence. *)
Definition first_occurrence_order {A : Type} (out l : list A) : Prop :=
  ∀ n1 x n2, out = n1 ++ x :: n2 →
    ∃ l1 l2, l = l1 ++ x :: l2 ∧ (x ∉ l1) ∧ (∀ y, y ∈ n2 → y ∉ l1).

(** A loop that keeps the first element of every key: the common shape of
    the three deduplication loops, written as a recursion on the input. *)
Section KeepFirst.
Context {A K : Type} `{Countable K}.
Variable key : A → K.
Variable ok : A → bool.

Fixpoint keep_first (seen : gset K) (l : list A) : list A :=
  match l with
  | [] => []
  | x :: tl =>
      if ok x && bool_decide (key x ∉ seen)
      then x :: keep_first (seen ∪ {[key x]}) tl
      else keep_first seen tl
  end.

End KeepFirst.

Section Notions.
Context {U : Unicode}.

(** No white space at either end. *)
Definition trimmed (s : pystr) : bool :=
  match s with
  | [] => true
  | c :: _ => negb (isspace c)
  end &&
  match last s with
  | Some c => negb (isspace c)
  | None => true
  end.

(** Every white-space character is a single U+0020 between other
    characters. *)
Fixpoint single_spaced (s : pystr) : bool :=
  match s with
  | [] => true
  | c :: tl =>
      (if isspace c
       then (c =? 32)%N && negb (from_option isspace false (head tl))
       else true)
      && single_spaced tl
  end.

(** [re.search(p, s) is None] for every pattern of a list. *)
Definition no_match (ps : list pattern) (s : pystr) : bool :=
  forallb (fun p => negb (re_search p s)) ps.

(** The patterns that the two files delete, and those only
    [westfield_scraper.py] has. *)
Definition shared_rules : list pattern :=
  [RE_PARENS; RE_PLAN_NUM; RE_STATUS; RE_DASH; RE_LABEL; RE_PLAN].

Definition westfield_rules : list pattern :=
  [RE_PIPE; RE_LOCATION; RE_STREET; RE_NUMBER].

(** Clean text: trimmed, single-spaced, no match of any of the patterns
    [ps], and not of the doubled form ["X X"]. *)
Definition noise_free (ps : list pattern) (s : pystr) : bool :=
  trimmed s && single_spaced s && no_match ps s
  && bool_decide (re_match RE_HALVES s = None).

(** The text after the first eight rules, which the two files share. *)
Definition first_eight (raw : pystr) : pystr :=
  match raw with
  | [] => []
  | _ =>
      let s := strip raw in
      let s := re_sub RE_PARENS [] s in
      let s := re_sub RE_PLAN_NUM [] s in
      let s := re_sub RE_STATUS [] s in
      let s := re_sub RE_DASH [] s in
      let s := re_sub RE_LABEL [] s in
      let s := strip (re_sub RE_SPACES (u " ") s) in
      strip (re_sub RE_PLAN [] s)
  end.

(** What an anchor, and an element of the fallback scan, offers to the
    list of names: the cleaned text, when the element can be read and (for
    an anchor) passes the filter. *)
Definition anchor_offer (clean : pystr → pystr) (a : element) : option pystr :=
  match inner_text a, get_attribute_href a with
  | Value text, Value href =>
      let text := strip (or_empty text) in
      if candidate_filter text (or_empty href) then Some (clean text) else None
  | _, _ => None
  end.

Definition fallback_offer (clean : pystr → pystr) (el : element) : option pystr :=
  match inner_text el with
  | Value text => Some (clean (strip (or_empty text)))
  | Exception => None
  end.

(** The accepted candidates of a pass: the non-empty names it is offered. *)
Definition accepted_primary (clean : pystr → pystr) (pg : page) : list pystr :=
  filter (fun x => x ≠ []) (omap (anchor_offer clean) (anchors pg)).

Definition accepted_fallback (clean : pystr → pystr) (pg : page) : list pystr :=
  filter (fun x => x ≠ []) (omap (fallback_offer clean) (candidates pg)).

Definition accepted (clean : pystr → pystr) (pg : page) : list pystr :=
  match accepted_primary clean pg with
  | [] => accepted_fallback clean pg
  | l => l
  end.

(** The key of the sheet [unique], and the rows that have one. *)
Definition unique_key (store : pystr) : pystr := str_lower (strip store).

Definition row_ok (r : pystr * pystr) : bool := bool_decide (unique_key r.2 ≠ []).

(** The names of one site, as [main] writes them to its per-URL file. *)
Definition source_list (s : westfield_scraper.site) : list pystr :=
  match westfield_scraper.extract_store_links (westfield_scraper.pg s) with
  | Value names => westfield_scraper.per_unique names
  | Exception => []
  end.

End Notions.

(** The characters a sheet name must not have. *)
Definition sheet_forbidden : list N :=
  [92%N; ord "/"; ord "?"; ord "*"; ord "["; ord "]"; ord ":"].

(** The characters of a slug: a lower-case ASCII letter, an ASCII digit or
    the underscore. *)
Definition slug_char (c : N) : bool :=
  between 97 122 c || between 48 57 c || (c =? 95)%N.

(** The length of the run of characters with [P] at the start of [s]. *)
Fixpoint run_length (P : N → bool) (s : pystr) : nat :=
  match s with
  | [] => 0
  | c :: tl => if P c then S (run_length P tl) else 0
  end.

(** Every run of characters with [P] replaced by [repl]; [in_run] tells
    that the text continues a run that is already replaced. *)
Fixpoint squeeze (P : N → bool) (repl : pystr) (in_run : bool) (s : pystr)
    : pystr :=
  match s with
  | [] => []
  | c :: tl =>
      if P c then (if in_run then [] else repl) ++ squeeze P repl true tl
      else c :: squeeze P repl false tl
  end.

(** [s] is no longer than [t] and has no character that is not in [t],
    the space apart. *)
Definition shrinks (s t : pystr) : Prop :=
  length s ≤ length t ∧ ∀ c, c ∈ s → c ∈ t ∨ c = 32%N.

(** Every group of [e] is a piece of [text]. *)
Definition groups_within (text : pystr) (e : groups) : Prop :=
  Forall (fun gw : nat * pystr => gw.2 `sublist_of` text) e.

(** A page with two anchors, a store and the heading of the list. *)
Definition two_anchor_page : page :=
  Page [Element (Value (Some (u "Nike"))) (Value (Some (u "/se/butiker/nike")));
        Element (Value (Some (u "Butik"))) (Value (Some (u "/butik")))]
       [] (Value (u "Mall")).

(** The lines that [write_output_text] writes for the stores of a site. *)
Definition store_lines (names : list pystr) : pystr :=
  concat ((fun s => s ++ [10%N]) <$> names).

(** What an extraction function does with a page: an element that cannot
    be read is passed over; when the anchors give a name the result is the
    names of the anchors, whatever the fallback query would do; when they
    give none the result is the names of the fallback scan; and the
    function raises exactly when a query that it makes raises. *)
Definition extraction_contract `{U : Unicode} (clean : pystr → pystr)
    (extract : live_page → outcome (list pystr)) : Prop :=
  (∀ pre a post qc t,
     inner_text a = Exception ∨ get_attribute_href a = Exception →
     extract (LivePage (Value (pre ++ a :: post)) qc t)
     = extract (LivePage (Value (pre ++ post)) qc t))
  ∧ (∀ qa pre el post t,
       inner_text el = Exception →
       extract (LivePage qa (Value (pre ++ el :: post)) t)
       = extract (LivePage qa (Value (pre ++ post)) t))
  ∧ (∀ an qc t,
       accepted_primary clean (Page an [] t) ≠ [] →
       ∃ names, extract (LivePage (Value an) qc t) = Value names
         ∧ ∀ x, x ∈ names ↔ x ∈ accepted_primary clean (Page an [] t))
  ∧ (∀ an cs t,
       accepted_primary clean (Page an [] t) = [] →
       ∃ names, extract (LivePage (Value an) (Value cs) t) = Value names
         ∧ ∀ x, x ∈ names ↔ x ∈ accepted_fallback clean (Page an cs t))
  ∧ (∀ lp,
       extract lp = Exception ↔
       query_anchors lp = Exception
       ∨ ∃ an, query_anchors lp = Value an
               ∧ accepted_primary clean (Page an [] (live_title lp)) = []
               ∧ query_candidates lp = Exception).

(** A page whose only anchor passes the filter and is normalised to the
    empty string, with one element for the fallback scan. *)
Definition label_only_page : page :=
  Page [Element (Value (Some (u "Butik:"))) (Value (Some (u "/x")))]
       [Element (Value (Some (u "Zara"))) (Value None)]
       (Value (u "Mall")).

(** A page whose first query raises. *)
Definition broken_page : live_page :=
  LivePage Exception (Value []) (Value (u "Mall")).









(** ** The documented examples

    Statements about concrete text are about the tables [latin1], the only
    instance of [Unicode] in the file. *)

(** The engine on small patterns: an empty match is replaced too, also
    right after a match; a greedy repeat gives back, a lazy one takes more;
    [$] holds before a final line feed only, and [.] stops at a line
    feed, so a dash on a line that is not the last cuts nothing. *)
Example re_sub_empty_matches :
  re_sub (Pattern false (star (LITERAL (ord "x")))) (u "-") (u "abxd")
  = u "-a-b--d-".
Proof. vm_compute; reflexivity. Qed.

Example re_match_greedy_and_lazy :
  re_match (Pattern false (seq [SUBPATTERN 1 (star ANY); word "b"])) (u "abcb")
  = Some [(1, u "abc")]
  ∧ re_match (Pattern false (seq [SUBPATTERN 1 (plus_lazy ANY); word "b"])) (u "abcb")
    = Some [(1, u "a")].
Proof. split; vm_compute; reflexivity. Qed.

Example re_sub_dash_and_line_feed :
  re_sub RE_DASH [] (u "A - B" ++ [10%N]) = u "A " ++ [10%N]
  ∧ re_sub RE_DASH [] (u "A - B" ++ [10%N] ++ u "C") = u "A - B" ++ [10%N] ++ u "C".
Proof. split; vm_compute; reflexivity. Qed.

(** C7: the four documented equations of the normaliser hold, in
    [westfield_scraper.py] and in [webscraper_jan.py]:
    ["Store (Closed)"] gives ["Store"], ["Name - stängt"] gives ["Name"],
    ["Butik: Shoe World"] gives ["Shoe World"], ["Shop Shop"] gives
    ["Shop"]. *)
Theorem normalize_examples :
  westfield_scraper.clean_store_name (u "Store (Closed)") = u "Store"
  ∧ westfield_scraper.clean_store_name (u "Name - stängt") = u "Name"
  ∧ westfield_scraper.clean_store_name (u "Butik: Shoe World") = u "Shoe World"
  ∧ westfield_scraper.clean_store_name (u "Shop Shop") = u "Shop"
  ∧ webscraper_jan.clean_store_name (u "Store (Closed)") = u "Store"
  ∧ webscraper_jan.clean_store_name (u "Name - stängt") = u "Name"
  ∧ webscraper_jan.clean_store_name (u "Butik: Shoe World") = u "Shoe World"
  ∧ webscraper_jan.clean_store_name (u "Shop Shop") = u "Shop".
Proof. repeat split; vm_compute; reflexivity. Qed.

(** C5: the normaliser returns text that is not whitespace-normalised.
    Cutting at a location word leaves the space before it, in
    [westfield_scraper.py]: ["Zara Gatuplan | Postgatan"] gives ["Zara "].
    Deleting a lone "plan" after the collapse leaves two spaces side by
    side, in both files: ["A plan B"] gives ["A  B"]. *)
Theorem normalize_leaves_whitespace :
  westfield_scraper.clean_store_name (u "Zara Gatuplan | Postgatan") = u "Zara "
  ∧ trimmed (westfield_scraper.clean_store_name (u "Zara Gatuplan | Postgatan"))
    = false
  ∧ westfield_scraper.clean_store_name (u "A plan B") = u "A  B"
  ∧ webscraper_jan.clean_store_name (u "A plan B") = u "A  B"
  ∧ single_spaced (westfield_scraper.clean_store_name (u "A plan B")) = false.
Proof. repeat split; vm_compute; reflexivity. Qed.

(** ** The engine on text without a match *)

Section Engine.
Context {U : Unicode}.

Lemma search_from_false p prev ch tl :
  search_from p prev (ch :: tl) = false →
  match_here p false prev (ch :: tl) = None ∧ search_from p (Some ch) tl = false.
Proof.
  simpl. destruct (match_here p false prev (ch :: tl)); [discriminate | auto].
Qed.

Lemma sub_from_no_match p repl rest :
  ∀ prev, search_from p prev rest = false → sub_from p repl 0 prev rest = rest.
Proof.
  induction rest as [|ch tl IH]; intros prev Hs.
  - simpl in *. destruct (match_here p false prev []); [discriminate | reflexivity].
  - apply search_from_false in Hs as [Hm Htl].
    cbn [sub_from]. rewrite Hm. cbn. f_equal. apply IH, Htl.
Qed.

Lemma re_sub_no_match p repl s : re_search p s = false → re_sub p repl s = s.
Proof. apply sub_from_no_match. Qed.

Lemma no_match_cons p ps s :
  no_match (p :: ps) s = true → re_search p s = false ∧ no_match ps s = true.
Proof.
  unfold no_match. cbn [forallb]. intros [Hp Hps]%andb_prop.
  split; [by apply negb_true_iff | done].
Qed.

(** *** [strip] on trimmed text *)

Lemma lstrip_head s :
  match s with [] => true | c :: _ => negb (isspace c) end = true → lstrip s = s.
Proof. destruct s as [|c tl]; [done|]. simpl. by intros ->%negb_true_iff. Qed.

Lemma strip_trimmed s : trimmed s = true → strip s = s.
Proof.
  unfold trimmed, strip, rstrip. intros [Hh Hl]%andb_prop.
  rewrite (lstrip_head s Hh), lstrip_head; [apply reverse_involutive|].
  destruct (reverse s) as [|c tl] eqn:Hr; [done|].
  assert (last s = Some c) as Hls.
  { rewrite <- (reverse_involutive s), Hr, reverse_cons. apply last_snoc. }
  by rewrite Hls in Hl.
Qed.

(** *** The collapse of white space on single-spaced text *)

Lemma match_spaces_none prev ch tl :
  isspace ch = false → match_here RE_SPACES false prev (ch :: tl) = None.
Proof. intros Hc. unfold match_here. cbn. by rewrite Hc. Qed.

Lemma match_spaces_one prev ch tl :
  isspace ch = true → from_option isspace false (head tl) = false →
  match_here RE_SPACES false prev (ch :: tl) = Some (1, []).
Proof.
  intros Hc Hn. unfold match_here. cbn. rewrite Hc. cbn.
  destruct tl as [|c2 tl2]; cbn; [done|].
  cbn in Hn. rewrite Hn. cbn. do 2 f_equal. lia.
Qed.

Lemma collapse_single_spaced s :
  ∀ prev, single_spaced s = true → sub_from RE_SPACES (u " ") 0 prev s = s.
Proof.
  induction s as [|ch tl IH]; intros prev Hs.
  - reflexivity.
  - cbn [single_spaced] in Hs. apply andb_prop in Hs as [Hc Htl].
    cbn [sub_from]. destruct (isspace ch) eqn:Hsp.
    + apply andb_prop in Hc as [->%N.eqb_eq Hn%negb_true_iff].
      rewrite match_spaces_one by done. cbn. f_equal.
      destruct tl as [|c2 tl2]; [done|]. cbn in Hn.
      cbn [sub_from]. rewrite match_spaces_none by done.
      cbn. f_equal. specialize (IH (Some 32%N) Htl). cbn [sub_from] in IH.
      rewrite match_spaces_none in IH by done. cbn in IH. by injection IH.
    + rewrite match_spaces_none by done. cbn. f_equal. by apply IH.
Qed.

End Engine.

(** ** The normaliser on clean text *)

Section Normalizer.
Context {U : Unicode}.

Lemma noise_free_inv ps s :
  noise_free ps s = true →
  strip s = s ∧ re_sub RE_SPACES (u " ") s = s ∧ no_match ps s = true
  ∧ re_match RE_HALVES s = None.
Proof.
  unfold noise_free.
  intros [[[Ht Hs]%andb_prop Hn]%andb_prop Hh%bool_decide_eq_true]%andb_prop.
  repeat split; auto using strip_trimmed.
  by apply collapse_single_spaced.
Qed.

Ltac no_match_steps H :=
  repeat (apply no_match_cons in H as [?%(fun E => re_sub_no_match _ [] _ E) H]).

Ltac fixed_steps s :=
  repeat match goal with E : _ = s |- _ => rewrite E end.

(** Clean text is a fixed point of each normaliser. *)
Lemma jan_fixed s :
  noise_free shared_rules s = true → webscraper_jan.clean_store_name s = s.
Proof.
  intros (Hstrip & Hsp & Hn & Hh)%noise_free_inv.
  unfold shared_rules in Hn. no_match_steps Hn.
  unfold webscraper_jan.clean_store_name. destruct s as [|c tl] eqn:Es; [done|].
  rewrite <- Es in *. cbv zeta. fixed_steps s. by rewrite Hh.
Qed.

Lemma westfield_fixed s :
  noise_free (shared_rules ++ westfield_rules) s = true →
  westfield_scraper.clean_store_name s = s.
Proof.
  intros (Hstrip & Hsp & Hn & Hh)%noise_free_inv.
  unfold shared_rules, westfield_rules in Hn. cbn [app] in Hn. no_match_steps Hn.
  unfold westfield_scraper.clean_store_name.
  destruct s as [|c tl] eqn:Es; [done|].
  rewrite <- Es in *. cbv zeta. fixed_steps s. by rewrite Hh.
Qed.

(** The two normalisers from the text after the eighth rule on. *)
Lemma jan_first_eight raw :
  webscraper_jan.clean_store_name raw =
  match re_match RE_HALVES (first_eight raw) with
  | Some m => strip (group_x m)
  | None => first_eight raw
  end.
Proof. by destruct raw. Qed.

Lemma westfield_first_eight raw :
  westfield_scraper.clean_store_name raw =
  let s := re_sub RE_PIPE [] (first_eight raw) in
  let s := re_sub RE_LOCATION [] s in
  let s := re_sub RE_STREET [] s in
  let s := re_sub RE_NUMBER [] s in
  match re_match RE_HALVES s with
  | Some m => strip (group_x m)
  | None => s
  end.
Proof. by destruct raw. Qed.

End Normalizer.

(** C1, as amended: the normaliser returns clean text unchanged, so
    normalising twice is normalising once whenever the first result is
    clean: trimmed, single-spaced, without a match of any pattern the
    normaliser deletes, and not of the doubled form.  This holds of
    [westfield_scraper.py] with its ten patterns and of
    [webscraper_jan.py] with its six. *)
Theorem normalize_idempotent_on_clean `{U : Unicode} (x : pystr) :
  (noise_free (shared_rules ++ westfield_rules)
     (westfield_scraper.clean_store_name x) = true →
   westfield_scraper.clean_store_name (westfield_scraper.clean_store_name x)
   = westfield_scraper.clean_store_name x)
  ∧ (noise_free shared_rules (webscraper_jan.clean_store_name x) = true →
     webscraper_jan.clean_store_name (webscraper_jan.clean_store_name x)
     = webscraper_jan.clean_store_name x).
Proof. split; intros Hc; [by apply westfield_fixed | by apply jan_fixed]. Qed.

Lemma normalize_idempotent_on_clean_witness :
  noise_free (shared_rules ++ westfield_rules)
    (westfield_scraper.clean_store_name (u "Store (Closed)")) = true
  ∧ noise_free shared_rules
      (webscraper_jan.clean_store_name (u "Name - stängt")) = true
  ∧ westfield_scraper.clean_store_name
      (westfield_scraper.clean_store_name (u "Store (Closed)"))
    = westfield_scraper.clean_store_name (u "Store (Closed)")
  ∧ webscraper_jan.clean_store_name
      (webscraper_jan.clean_store_name (u "Name - stängt"))
    = webscraper_jan.clean_store_name (u "Name - stängt").
Proof.
  split; [vm_compute; reflexivity|]. split; [vm_compute; reflexivity|].
  split.
  - apply (normalize_idempotent_on_clean (u "Store (Closed)")).
    vm_compute; reflexivity.
  - apply (normalize_idempotent_on_clean (u "Name - stängt")).
    vm_compute; reflexivity.
Defined.

(** C1, as stated, fails: a leading label is stripped once per run, so
    ["Shop Butik X"] gives ["Butik X"], which gives ["X"]. *)
Lemma normalize_not_idempotent :
  westfield_scraper.clean_store_name (u "Shop Butik X") = u "Butik X"
  ∧ westfield_scraper.clean_store_name
      (westfield_scraper.clean_store_name (u "Shop Butik X")) = u "X"
  ∧ webscraper_jan.clean_store_name
      (webscraper_jan.clean_store_name (u "Shop Butik X"))
    ≠ webscraper_jan.clean_store_name (u "Shop Butik X")
  ∧ ¬ (∀ x : pystr,
         westfield_scraper.clean_store_name (westfield_scraper.clean_store_name x)
         = westfield_scraper.clean_store_name x).
Proof.
  split; [vm_compute; reflexivity|]. split; [vm_compute; reflexivity|].
  split; [vm_compute; discriminate|].
  intros H. specialize (H (u "Shop Butik X")). vm_compute in H. discriminate.
Qed.

(** C3, as amended: the two files share the first eight rules and the
    collapse of doubled halves; [westfield_scraper.py] alone deletes from a
    pipe, a location word or a street name on, and a trailing number.  On
    every input whose text after the eighth rule has no match of these
    four patterns, the two return the same. *)
Theorem normalizers_agree_without_westfield_noise `{U : Unicode} (raw : pystr) :
  no_match westfield_rules (first_eight raw) = true →
  westfield_scraper.clean_store_name raw = webscraper_jan.clean_store_name raw.
Proof.
  intros Hn. rewrite westfield_first_eight, jan_first_eight.
  unfold westfield_rules in Hn.
  repeat (apply no_match_cons in Hn as [?%(fun E => re_sub_no_match _ [] _ E) Hn]).
  cbv zeta.
  repeat match goal with E : _ = first_eight raw |- _ => rewrite E end.
  reflexivity.
Qed.

Lemma normalizers_agree_witness :
  no_match westfield_rules (first_eight (u "Butik: Shoe World")) = true
  ∧ westfield_scraper.clean_store_name (u "Butik: Shoe World")
    = webscraper_jan.clean_store_name (u "Butik: Shoe World").
Proof.
  split; [vm_compute; reflexivity|].
  apply (normalizers_agree_without_westfield_noise (u "Butik: Shoe World")).
  vm_compute; reflexivity.
Defined.

(** C3, as stated, fails: [webscraper_jan.py] has no rule for the pipe and
    returns ["Name | Location"] as it is, where [westfield_scraper.py]
    returns ["Name"]. *)
Lemma normalizers_differ_on_pipe :
  westfield_scraper.clean_store_name (u "Name | Location") = u "Name"
  ∧ webscraper_jan.clean_store_name (u "Name | Location") = u "Name | Location"
  ∧ westfield_scraper.clean_store_name (u "Name | Location")
    ≠ webscraper_jan.clean_store_name (u "Name | Location").
Proof.
  split; [vm_compute; reflexivity|]. split; [vm_compute; reflexivity|].
  vm_compute; discriminate.
Qed.

(** ** Loops that keep the first of every key *)

Section KeepFirstFacts.
Context {A K : Type} `{Countable K}.
Variable key : A → K.
Variable ok : A → bool.

Local Abbreviation kf := (keep_first key ok).

Lemma keep_first_sublist seen l : kf seen l `sublist_of` l.
Proof.
  revert seen. induction l as [|x tl IH]; intros seen; cbn; [constructor|].
  destruct (ok x && bool_decide (key x ∉ seen));
    [apply sublist_skip | apply sublist_cons]; apply IH.
Qed.

Lemma keep_first_elem seen l x :
  x ∈ kf seen l → x ∈ l ∧ ok x = true ∧ key x ∉ seen.
Proof.
  revert seen. induction l as [|a tl IH]; intros seen; cbn; [by intros ?%elem_of_nil|].
  destruct (ok a && bool_decide (key a ∉ seen)) eqn:E.
  - apply andb_prop in E as [Hok Hk%bool_decide_eq_true].
    intros [->|Hx]%elem_of_cons; [by rewrite elem_of_cons; auto|].
    apply IH in Hx as (? & ? & Hn). rewrite elem_of_cons. set_solver.
  - intros (? & ? & ?)%IH. rewrite elem_of_cons. auto.
Qed.

Lemma keep_first_keys_NoDup seen l : NoDup (key <$> kf seen l).
Proof.
  revert seen. induction l as [|a tl IH]; intros seen; cbn; [constructor|].
  destruct (ok a && bool_decide (key a ∉ seen)); [|apply IH].
  cbn. apply NoDup_cons. split; [|apply IH].
  intros (y & Hy & (_ & _ & Hn)%keep_first_elem)%list_elem_of_fmap.
  set_solver.
Qed.

Lemma keep_first_complete seen l x :
  x ∈ l → ok x = true → key x ∉ seen → key x ∈ key <$> kf seen l.
Proof.
  revert seen. induction l as [|a tl IH]; intros seen; [by intros ?%elem_of_nil|].
  intros Hx Hok Hn. cbn.
  destruct (ok a && bool_decide (key a ∉ seen)) eqn:E.
  - cbn. destruct (decide (key x = key a)) as [->|Hne]; [by left|right].
    apply elem_of_cons in Hx as [->|Hx]; [done|].
    apply IH; [done..|set_solver].
  - apply elem_of_cons in Hx as [->|Hx]; [|by apply IH].
    rewrite Hok in E. cbn in E. by apply bool_decide_eq_false in E.
Qed.

Lemma keep_first_split seen l n1 x n2 :
  kf seen l = n1 ++ x :: n2 →
  ∃ l1 l2, l = l1 ++ x :: l2 ∧ kf seen l1 = n1.
Proof.
  revert seen n1. induction l as [|a tl IH]; intros seen n1; cbn.
  - by destruct n1.
  - destruct (ok a && bool_decide (key a ∉ seen)) eqn:E.
    + destruct n1 as [|b n1]; cbn; intros [= Ha Htl]; subst.
      * by exists [], tl.
      * apply IH in Htl as (l1 & l2 & -> & <-).
        exists (b :: l1), l2. cbn. by rewrite E.
    + intros (l1 & l2 & -> & <-)%IH.
      exists (a :: l1), l2. cbn. by rewrite E.
Qed.

(** An element that is kept is the first of its key, and what is kept
    after it has no key that occurs before it. *)
Lemma keep_first_first seen l n1 x n2 :
  kf seen l = n1 ++ x :: n2 →
  ∃ l1 l2, l = l1 ++ x :: l2 ∧
    ∀ y z, y ∈ l1 → ok y = true → z ∈ x :: n2 → key y ≠ key z.
Proof.
  intros Hk. destruct (keep_first_split _ _ _ _ _ Hk) as (l1 & l2 & -> & <-).
  exists l1, l2. split; [done|]. intros y z Hy Hok Hz Heq.
  pose proof (keep_first_keys_NoDup seen (l1 ++ x :: l2)) as Hnd.
  rewrite Hk, fmap_app in Hnd. apply NoDup_app in Hnd as (_ & Hdisj & _).
  assert (key z ∉ seen) as Hzs.
  { eapply (keep_first_elem seen (l1 ++ x :: l2)). rewrite Hk. set_solver. }
  apply (Hdisj (key y)).
  - apply keep_first_complete; [done..|by rewrite Heq].
  - rewrite Heq. by apply list_elem_of_fmap_2.
Qed.

Lemma keep_first_filter seen l :
  kf seen l = keep_first key (fun _ => true) seen (filter (fun x => ok x = true) l).
Proof.
  revert seen. induction l as [|a tl IH]; intros seen; [done|].
  rewrite filter_cons. cbn [keep_first].
  destruct (decide (ok a = true)) as [E|E].
  - rewrite E. cbn. destruct (bool_decide (key a ∉ seen)); by rewrite IH.
  - apply not_true_is_false in E. rewrite E. apply IH.
Qed.

(** The loop itself: an accumulator that appends [f x] for every element
    kept. *)
Lemma foldl_keep_first {B} (f : A → B) (step : list B * gset K → A → list B * gset K) :
  (∀ st x, step st x =
           if ok x && bool_decide (key x ∉ st.2)
           then (st.1 ++ [f x], st.2 ∪ {[key x]}) else st) →
  ∀ l st, foldl step st l =
          (st.1 ++ (f <$> kf st.2 l), st.2 ∪ list_to_set (key <$> kf st.2 l)).
Proof.
  intros Hstep. induction l as [|a tl IH]; intros [out seen]; cbn.
  - rewrite app_nil_r. f_equal. set_solver.
  - rewrite IH, Hstep. cbn.
    destruct (ok a && bool_decide (key a ∉ seen)); [|done].
    cbn. rewrite <- app_assoc. f_equal. set_solver.
Qed.

Lemma keep_first_nil l : keep_first key (fun _ => true) ∅ l = [] → l = [].
Proof.
  destruct l as [|a tl]; [done|]. cbn.
  rewrite bool_decide_eq_true_2 by set_solver. done.
Qed.

End KeepFirstFacts.

(** With the identity as key, the order of first occurrence. *)
Lemma keep_first_order {A} `{Countable A} (l : list A) :
  first_occurrence_order (keep_first id (fun _ => true) ∅ l) l.
Proof.
  intros n1 x n2 Hk.
  destruct (keep_first_first _ _ _ _ _ _ _ Hk) as (l1 & l2 & -> & Hfirst).
  exists l1, l2. split; [done|]. split.
  - intros Hx. by apply (Hfirst x x Hx eq_refl); [left|].
  - intros y Hy Hy1. by apply (Hfirst y y Hy1 eq_refl); [right|].
Qed.

(** ** Candidate extraction *)

Section FilterFacts.
Context {U : Unicode}.

Lemma startswith_spec k s : startswith k s = true ↔ ∃ post, s = k ++ post.
Proof.
  revert s. induction k as [|a k IH]; intros s; cbn.
  - split; [by exists s | done].
  - destruct s as [|b s]; [split; [done | by intros [? ?]]|].
    rewrite andb_true_iff, N.eqb_eq, IH. split.
    + intros [-> [post ->]]. by exists post.
    + intros [post [= -> ->]]. eauto.
Qed.

Lemma contains_spec k s : contains k s = true ↔ substring k s.
Proof.
  unfold substring. induction s as [|b s IH]; cbn [contains].
  - rewrite orb_false_r, startswith_spec. split.
    + intros [post Hp]. by exists [], post.
    + intros (pre & post & Hp). symmetry in Hp.
      apply app_eq_nil in Hp as [-> Hk]. apply app_eq_nil in Hk as [-> ->].
      by exists [].
  - rewrite orb_true_iff, startswith_spec, IH. split.
    + intros [[post ->]|(pre & post & ->)]; [by exists [], post|].
      by exists (b :: pre), post.
    + intros ([|c pre] & post & Hp); cbn in Hp; [left; by exists post|].
      injection Hp as -> ->. right. by exists pre, post.
Qed.

Lemma any_in_spec ks s :
  any_in ks s = true ↔ ∃ k, k ∈ ks ∧ substring k s.
Proof.
  unfold any_in. rewrite existsb_exists. setoid_rewrite contains_spec.
  by setoid_rewrite list_elem_of_In.
Qed.

Lemma candidate_filter_spec text href :
  candidate_filter text href = true ↔
  2 ≤ length text ∧
  ((∃ k, k ∈ heuristics ∧ substring k (str_lower href))
   ∨ (∃ k, k ∈ text_keywords ∧ substring k (str_lower text))).
Proof.
  unfold candidate_filter. rewrite <- !any_in_spec, <- orb_true_iff.
  destruct (bool_decide (text = []) || (length text <? 2)) eqn:E.
  - split; [done|]. intros [Hlen _].
    apply orb_prop in E as [->%bool_decide_eq_true|Hl%Nat.ltb_lt]; cbn in *; lia.
  - apply orb_false_elim in E as [_ Hl%Nat.ltb_ge]. tauto.
Qed.

End FilterFacts.

Section ExtractFacts.
Context {U : Unicode}.
Variable clean : pystr → pystr.

Local Abbreviation first_seen := (keep_first (A := list N) id (fun _ => true) ∅).

(** The two loops as folds over what the elements offer. *)
Lemma anchor_step_offer st a :
  anchor_step clean st a
  = Value (match anchor_offer clean a with Some x => add_name st x | None => st end).
Proof.
  unfold anchor_step, anchor_offer.
  destruct (inner_text a) as [t|]; cbn; [|done].
  destruct (get_attribute_href a) as [h|]; cbn; [|done].
  by destruct (candidate_filter _ _).
Qed.

Lemma fallback_step_offer st el :
  fallback_step clean st el
  = Value (match fallback_offer clean el with Some x => add_name st x | None => st end).
Proof.
  unfold fallback_step, fallback_offer. by destruct (inner_text el).
Qed.

Lemma anchor_loop l : ∀ st,
  for_each (anchor_step clean) st l
  = Value (foldl add_name st (omap (anchor_offer clean) l)).
Proof.
  induction l as [|a tl IH]; intros st; [done|].
  cbn [for_each]. rewrite anchor_step_offer. cbn.
  destruct (anchor_offer clean a); apply IH.
Qed.

Lemma fallback_loop l : ∀ st,
  for_each (fallback_step clean) st l
  = Value (foldl add_name st (omap (fallback_offer clean) l)).
Proof.
  induction l as [|a tl IH]; intros st; [done|].
  cbn [for_each]. rewrite fallback_step_offer. cbn.
  destruct (fallback_offer clean a); apply IH.
Qed.

Lemma add_name_loop offers :
  foldl add_name ([], ∅) offers =
  (first_seen (filter (fun x => x ≠ []) offers),
   list_to_set (first_seen (filter (fun x => x ≠ []) offers))).
Proof.
  rewrite (foldl_keep_first id (fun x => bool_decide (x ≠ [])) id add_name)
    by done.
  cbn. rewrite keep_first_filter, !list_fmap_id.
  rewrite (list_filter_iff (fun x => bool_decide (x ≠ []) = true) (fun x => x ≠ []))
    by (intros x; apply bool_decide_eq_true).
  f_equal. set_solver.
Qed.

Lemma extract_names_spec pg :
  extract_names clean pg = Value (first_seen (accepted clean pg)).
Proof.
  unfold extract_names, accepted, accepted_primary, accepted_fallback.
  rewrite anchor_loop. cbn. rewrite add_name_loop. cbn.
  destruct (first_seen _) as [|n ns] eqn:E.
  - apply keep_first_nil in E. rewrite E. cbn.
    rewrite fallback_loop. cbn. by rewrite add_name_loop.
  - cbn. rewrite <- E.
    destruct (filter _ (omap (anchor_offer clean) (anchors pg))); [done|done].
Qed.

Lemma extract_names_ordered pg :
  ∃ names, extract_names clean pg = Value names
    ∧ ([] ∉ names) ∧ NoDup names
    ∧ names `sublist_of` accepted clean pg
    ∧ (∀ x, x ∈ names ↔ x ∈ accepted clean pg)
    ∧ first_occurrence_order names (accepted clean pg).
Proof.
  eexists. split; [apply extract_names_spec|].
  assert (∀ x, x ∈ first_seen (accepted clean pg) ↔ x ∈ accepted clean pg) as Hmem.
  { intros x. split; [by intros (? & _)%keep_first_elem|].
    intros Hx. pose proof (keep_first_complete id (fun _ => true) ∅ _ x Hx eq_refl)
      as Hc. rewrite list_fmap_id in Hc. apply Hc. set_solver. }
  repeat split.
  - rewrite Hmem. unfold accepted, accepted_primary, accepted_fallback.
    destruct (filter _ (omap (anchor_offer clean) _)) eqn:E.
    + by intros [? _]%list_elem_of_filter.
    + rewrite <- E. by intros [? _]%list_elem_of_filter.
  - rewrite <- (list_fmap_id (first_seen _)). apply keep_first_keys_NoDup.
  - apply keep_first_sublist.
  - apply Hmem.
  - apply Hmem.
  - apply keep_first_order.
Qed.

Lemma anchor_offer_raises a :
  inner_text a = Exception ∨ get_attribute_href a = Exception →
  anchor_offer clean a = None.
Proof.
  unfold anchor_offer. intros [-> | ->]; [done|]. by destruct (inner_text a).
Qed.

Lemma extract_names_skips_anchor pre a post c t :
  inner_text a = Exception ∨ get_attribute_href a = Exception →
  extract_names clean (Page (pre ++ a :: post) c t)
  = extract_names clean (Page (pre ++ post) c t).
Proof.
  intros Ha. rewrite !extract_names_spec. do 2 f_equal.
  unfold accepted, accepted_primary. cbn.
  rewrite !omap_app. cbn. by rewrite (anchor_offer_raises a Ha).
Qed.

Lemma extract_names_skips_fallback an pre el post t :
  inner_text el = Exception →
  extract_names clean (Page an (pre ++ el :: post) t)
  = extract_names clean (Page an (pre ++ post) t).
Proof.
  intros Ha. rewrite !extract_names_spec. do 2 f_equal.
  unfold accepted, accepted_fallback. cbn.
  rewrite !omap_app. cbn. unfold fallback_offer at 2. by rewrite Ha.
Qed.

Lemma extract_names_fallback pg :
  (accepted_primary clean pg ≠ [] →
   extract_names clean pg = extract_names clean (Page (anchors pg) [] (title pg)))
  ∧ (accepted_primary clean pg = [] →
     extract_names clean pg = extract_names clean (Page [] (candidates pg) (title pg))).
Proof.
  rewrite !extract_names_spec. unfold accepted, accepted_primary. cbn.
  split.
  - intros Hne. by destruct (filter _ (omap (anchor_offer clean) (anchors pg))).
  - by intros ->.
Qed.

End ExtractFacts.

(** C8: the filter of the anchor loop accepts a candidate exactly when its
    trimmed text has at least two characters and either the lower-cased
    href contains one of the five path keywords or the lower-cased text
    contains one of the three text keywords; an anchor that is read and
    rejected leaves the names as they are.  ["Nike"] at
    ["/se/butiker/nike"] is accepted, ["About"] at ["/about-us"] is
    rejected. *)
Theorem candidate_filter_correct :
  (∀ (U : Unicode) (text href : pystr),
     candidate_filter (strip text) href = true ↔
     2 ≤ length (strip text) ∧
     ((∃ k, k ∈ [u "/butik"; u "/butiker"; u "/store"; u "/shop"; u "/shops"]
            ∧ substring k (str_lower href))
      ∨ (∃ k, k ∈ [u "butik"; u "store"; u "shop"]
              ∧ substring k (str_lower (strip text)))))
  ∧ (∀ (U : Unicode) clean st a text href,
       inner_text a = Value text → get_attribute_href a = Value href →
       candidate_filter (strip (or_empty text)) (or_empty href) = false →
       anchor_step clean st a = Value st)
  ∧ candidate_filter (strip (u "Nike")) (u "/se/butiker/nike") = true
  ∧ candidate_filter (strip (u "About")) (u "/about-us") = false.
Proof.
  split; [intros; apply candidate_filter_spec|].
  split; [|split; vm_compute; reflexivity].
  intros U clean st a text href Ht Hh Hf.
  rewrite anchor_step_offer. unfold anchor_offer. by rewrite Ht, Hh, Hf.
Qed.

(** C10: the list that [extract_store_links] and
    [extract_store_names_from_page] return has no empty string and no
    string twice; it is a subsequence of the accepted candidates of the
    pass that produced it, has every one of them, and lists them in the
    order in which they were first accepted. *)
Theorem extraction_distinct_in_order `{U : Unicode} (pg : page) :
  (∃ names, westfield_scraper.extract_store_links pg = Value names
     ∧ ([] ∉ names) ∧ NoDup names
     ∧ names `sublist_of` accepted westfield_scraper.clean_store_name pg
     ∧ (∀ x, x ∈ names ↔ x ∈ accepted westfield_scraper.clean_store_name pg)
     ∧ first_occurrence_order names
         (accepted westfield_scraper.clean_store_name pg))
  ∧ (∃ names, webscraper_jan.extract_store_names_from_page pg = Value names
       ∧ ([] ∉ names) ∧ NoDup names
       ∧ names `sublist_of` accepted webscraper_jan.clean_store_name pg
       ∧ (∀ x, x ∈ names ↔ x ∈ accepted webscraper_jan.clean_store_name pg)
       ∧ first_occurrence_order names
           (accepted webscraper_jan.clean_store_name pg)).
Proof. split; apply extract_names_ordered. Qed.

(** ** Per-source lists, the grouped view and the unique view *)

Lemma first_occurrence_order_sublist {A} (out' out l : list A) :
  out' `sublist_of` out → first_occurrence_order out l →
  first_occurrence_order out' l.
Proof.
  intros Hsub Hord n1 x n2 ->.
  apply sublist_app_l in Hsub as (k1 & k2 & -> & _ & Hx).
  apply sublist_cons_l in Hx as (k2a & k2b & -> & Hn2).
  destruct (Hord (k1 ++ k2a) x k2b) as (l1 & l2 & -> & Hx1 & Hrest).
  { by rewrite <- app_assoc. }
  exists l1, l2. repeat split; [done|].
  intros y Hy. apply Hrest. by eapply elem_of_sublist.
Qed.

Section Sources.
Context {U : Unicode}.
Import westfield_scraper export_westfield_to_excel.

Lemma per_unique_spec names :
  per_unique names =
  filter (fun x => x ≠ [] ∧ str_lower (strip x) ∉ stop_headers)
    (keep_first id (fun _ => true) ∅ names).
Proof.
  unfold per_unique.
  rewrite (foldl_keep_first id (fun _ => true) id dedup_step) by done.
  cbn. by rewrite list_fmap_id.
Qed.

Lemma stop_headers_spec k :
  k ∉ stop_headers ↔ k ≠ u "butik" ∧ k ≠ u "butiker".
Proof. unfold stop_headers. set_solver. Qed.

Lemma per_unique_facts names :
  NoDup (per_unique names)
  ∧ per_unique names `sublist_of` names
  ∧ (∀ x, x ∈ per_unique names ↔
          x ∈ names ∧ x ≠ [] ∧ str_lower (strip x) ≠ u "butik"
          ∧ str_lower (strip x) ≠ u "butiker")
  ∧ first_occurrence_order (per_unique names) names.
Proof.
  rewrite per_unique_spec.
  pose proof (keep_first_sublist id (fun _ => true) ∅ names) as Hsub.
  pose proof (keep_first_keys_NoDup id (fun _ => true) ∅ names) as Hnd.
  rewrite list_fmap_id in Hnd.
  repeat apply conj.
  - by apply NoDup_filter.
  - etrans; [apply sublist_filter | done].
  - intros x. rewrite list_elem_of_filter, stop_headers_spec. split.
    + intros [(? & ? & ?) (? & _)%keep_first_elem]. done.
    + intros (Hx & ? & ? & ?). split; [done|].
      pose proof (keep_first_complete id (fun _ => true) ∅ _ x Hx eq_refl) as Hc.
      rewrite list_fmap_id in Hc. apply Hc. set_solver.
  - eapply first_occurrence_order_sublist;
      [apply sublist_filter | apply keep_first_order].
Qed.

(** What one site adds to the per-URL files and to [merged_display]. *)
Lemma main_step_spec st s :
  main_step st s =
  Value (st.1 ++ [source_list s],
         st.2 ++ display_lines (site_title s) (source_list s)).
Proof.
  unfold main_step, source_list, extract_store_links.
  by rewrite extract_names_spec.
Qed.




Lemma merged_rows_app l1 l2 :
  merged_rows (l1 ++ l2) = merged_rows l1 ++ merged_rows l2.
Proof. unfold merged_rows. by rewrite fmap_app, concat_app. Qed.

Lemma dedup_spec rows :
  dedup rows =
  (fun r => (r.2, r.1)) <$> keep_first (fun r => unique_key r.2) row_ok ∅ rows.
Proof.
  unfold dedup.
  by rewrite (foldl_keep_first (fun r => unique_key r.2) row_ok
                (fun r => (r.2, r.1)) unique_step) by (by intros st [src store]).
Qed.


End Sources.

(** C2, as amended: the per-source pass of [main] removes exact
    duplicates, case-sensitively, keeps the names in the order of their
    first occurrence, and drops the empty name and every name whose trimmed
    lower case is ["butik"] or ["butiker"]; for ["Zara"; "zara"; "H&M";
    "Butik"] it gives ["Zara"; "zara"; "H&M"]. *)
Theorem per_source_dedup_exact :
  (∀ (U : Unicode) (names : list pystr),
     NoDup (westfield_scraper.per_unique names)
     ∧ westfield_scraper.per_unique names `sublist_of` names
     ∧ (∀ x, x ∈ westfield_scraper.per_unique names ↔
             x ∈ names ∧ x ≠ [] ∧ str_lower (strip x) ≠ u "butik"
             ∧ str_lower (strip x) ≠ u "butiker")
     ∧ first_occurrence_order (westfield_scraper.per_unique names) names)
  ∧ westfield_scraper.per_unique [u "Zara"; u "zara"; u "H&M"; u "Butik"]
    = [u "Zara"; u "zara"; u "H&M"].
Proof.
  split; [intros; apply per_unique_facts | vm_compute; reflexivity].
Qed.

(** C2, as stated, fails: ["zara"] is kept next to ["Zara"]. *)
Lemma per_source_dedup_keeps_case_variants :
  westfield_scraper.per_unique [u "Zara"; u "zara"; u "H&M"; u "Butik"]
  ≠ [u "Zara"; u "H&M"].
Proof. vm_compute. discriminate. Qed.





(** ** Sheet names *)

Section SheetNames.
Import export_westfield_to_excel.

Lemma replace_char a b s :
  replace [a] [b] s = (fun c => if (c =? a)%N then b else c) <$> s.
Proof.
  unfold replace. induction s as [|c tl IH]; [done|].
  cbn. rewrite andb_true_r, (N.eqb_sym a c).
  destruct (c =? a)%N; cbn; by rewrite IH.
Qed.

Lemma safe_sheet_name_map name :
  safe_sheet_name name
  = (fun c => if mem c sheet_forbidden then 95%N else c) <$> take 31 name.
Proof.
  unfold safe_sheet_name. cbn [foldl].
  change (u "_") with [95%N]. rewrite !replace_char, <- !list_fmap_compose.
  apply list_fmap_ext. intros _ c _. unfold sheet_forbidden, mem. cbn.
  repeat match goal with
         | |- context [(?x =? ?y)%N] =>
             destruct (N.eqb_spec x y); subst; cbn; try done
         end.
Qed.

Lemma mem_elem_of c l : mem c l = true ↔ c ∈ l.
Proof.
  unfold mem. rewrite existsb_exists. setoid_rewrite <- list_elem_of_In.
  split; [by intros (x & Hx & ->%N.eqb_eq) | intros Hc; exists c; by rewrite N.eqb_refl].
Qed.

Lemma underscore_not_forbidden : mem 95%N sheet_forbidden = false.
Proof. reflexivity. Qed.

End SheetNames.

(** X1: a sheet name has at most 31 characters and none of the seven
    characters a sheet name must not have; it is the first 31 characters of
    the name, each forbidden one replaced by an underscore. *)
Theorem safe_sheet_name_safe (name : pystr) :
  length (export_westfield_to_excel.safe_sheet_name name) = min 31 (length name)
  ∧ (∀ c, c ∈ export_westfield_to_excel.safe_sheet_name name →
          c ∉ sheet_forbidden)
  ∧ (∀ i, export_westfield_to_excel.safe_sheet_name name !! i
          = if decide (i < 31)
            then (fun c => if decide (c ∈ sheet_forbidden) then 95%N else c)
                   <$> name !! i
            else None).
Proof.
  rewrite safe_sheet_name_map. repeat apply conj.
  - by rewrite length_fmap, length_take.
  - intros c (c0 & -> & _)%list_elem_of_fmap.
    destruct (mem c0 sheet_forbidden) eqn:E.
    + rewrite <- mem_elem_of. by rewrite underscore_not_forbidden.
    + rewrite <- mem_elem_of. by rewrite E.
  - intros i. rewrite list_lookup_fmap. destruct (decide (i < 31)) as [Hi|Hi].
    + rewrite lookup_take_lt by done. destruct (name !! i) as [c|]; [|done].
      cbn [fmap option_fmap option_map]. f_equal.
      destruct (decide (c ∈ sheet_forbidden)) as [Hc|Hc].
      * apply mem_elem_of in Hc. by rewrite Hc.
      * destruct (mem c sheet_forbidden) eqn:E; [|done].
        by apply mem_elem_of in E.
    + rewrite lookup_take_ge by lia. done.
Qed.

(** X2: making a sheet name safe twice is making it safe once, and a name
    is left as it is exactly when it has at most 31 characters and no
    forbidden one. *)
Theorem safe_sheet_name_fixed (name : pystr) :
  export_westfield_to_excel.safe_sheet_name
    (export_westfield_to_excel.safe_sheet_name name)
  = export_westfield_to_excel.safe_sheet_name name
  ∧ (export_westfield_to_excel.safe_sheet_name name = name ↔
     length name ≤ 31 ∧ ∀ c, c ∈ name → c ∉ sheet_forbidden).
Proof.
  assert (∀ n : pystr,
            export_westfield_to_excel.safe_sheet_name n = n ↔
            length n ≤ 31 ∧ ∀ c, c ∈ n → c ∉ sheet_forbidden) as Hfix.
  { intros n. split.
    - intros Heq. pose proof (safe_sheet_name_safe n) as (Hlen & Hsafe & _).
      rewrite Heq in Hlen, Hsafe. split; [lia | done].
    - intros [Hlen Hsafe]. rewrite safe_sheet_name_map, take_ge by lia.
      rewrite <- (list_fmap_id n) at 2. apply list_fmap_ext. intros i c Hc.
      destruct (mem c sheet_forbidden) eqn:E; [|done].
      apply mem_elem_of in E. destruct (Hsafe c); [|done].
      by eapply list_elem_of_lookup_2. }
  split; [|apply Hfix]. apply Hfix.
  pose proof (safe_sheet_name_safe name) as (Hlen & Hsafe & _).
  split; [lia | done].
Qed.

(** ** More of the engine: deletions, repeats of one set, groups *)

Section EngineFacts.
Context {U : Unicode}.

(** A substitution by the empty string only deletes. *)
Lemma sub_from_delete_sublist p rest :
  ∀ skip prev, sub_from p [] skip prev rest `sublist_of` rest.
Proof.
  induction rest as [|ch tl IH]; intros skip prev.
  - destruct skip; cbn; [|done].
    destruct (match_here p false prev []) as [[[|n] g]|]; cbn; [|done..].
    by destruct (match_here p true prev []) as [[[|n] g']|].
  - destruct skip as [|n]; cbn [sub_from]; [|cbn; apply sublist_cons, IH].
    destruct (match_here p false prev (ch :: tl)) as [[[|n] g]|]; cbn.
    + destruct (match_here p true prev (ch :: tl)) as [[[|n] g']|]; cbn;
        first [apply sublist_skip, IH | apply sublist_cons, IH].
    + apply sublist_cons, IH.
    + apply sublist_skip, IH.
Qed.

Lemma re_sub_delete_sublist p s : re_sub p [] s `sublist_of` s.
Proof. apply sub_from_delete_sublist. Qed.

(** A greedy repeat of one set before a continuation that always accepts
    takes the whole run. *)
Lemma rep_max_run ic c rest :
  ∀ lo prev e,
    rep_max ic c lo None prev rest e (fun _ s1 e1 => Some (s1, e1))
    = if decide (lo ≤ run_length (chr_match ic c) rest)
      then Some (drop (run_length (chr_match ic c) rest) rest, e)
      else None.
Proof.
  induction rest as [|ch tl IH]; intros lo prev e; cbn.
  - destruct lo; [done|]. by rewrite decide_False by lia.
  - destruct (chr_match ic c ch) eqn:E; cbn.
    + rewrite IH. destruct lo as [|lo]; cbn.
      * rewrite !decide_True by lia. done.
      * destruct (decide (lo ≤ _)); [by rewrite decide_True by lia|].
        by rewrite decide_False by lia.
    + destruct lo; [done|]. by rewrite decide_False by lia.
Qed.

Lemma run_length_le P s : run_length P s ≤ length s.
Proof. induction s as [|c tl IH]; cbn; [done|]. destruct (P c); lia. Qed.

Lemma match_here_plus ic c prev rest :
  match_here (Pattern ic (plus c)) false prev rest
  = match run_length (chr_match ic c) rest with
    | O => None
    | S n => Some (S n, [])
    end.
Proof.
  unfold match_here. cbn [ignorecase body plus rmatch andb].
  rewrite rep_max_run. pose proof (run_length_le (chr_match ic c) rest) as Hle.
  destruct (run_length (chr_match ic c) rest) as [|n] eqn:E.
  - by rewrite decide_False by lia.
  - rewrite decide_True by lia. rewrite length_drop. do 2 f_equal. lia.
Qed.

(** A substitution for the runs of one set squeezes every run. *)
Lemma sub_from_plus ic c repl rest :
  ∀ prev,
    sub_from (Pattern ic (plus c)) repl (run_length (chr_match ic c) rest) prev rest
    = squeeze (chr_match ic c) repl true rest
    ∧ sub_from (Pattern ic (plus c)) repl 0 prev rest
      = squeeze (chr_match ic c) repl false rest.
Proof.
  induction rest as [|ch tl IH]; intros prev.
  - cbn [run_length sub_from squeeze]. by rewrite match_here_plus.
  - cbn [run_length squeeze sub_from]. rewrite match_here_plus. cbn [run_length].
    destruct (chr_match ic c ch) eqn:E; cbn.
    + by rewrite (proj1 (IH (Some ch))).
    + by rewrite (proj2 (IH (Some ch))).
Qed.

Lemma re_sub_plus ic c repl s :
  re_sub (Pattern ic (plus c)) repl s = squeeze (chr_match ic c) repl false s.
Proof. apply sub_from_plus. Qed.

Lemma squeeze_length P r b s : length (squeeze P [r] b s) ≤ length s.
Proof.
  revert b. induction s as [|c tl IH]; intros b; cbn; [done|].
  destruct (P c); [|cbn; specialize (IH false); lia].
  destruct b; cbn; specialize (IH true); lia.
Qed.

Lemma squeeze_elem P r b s c :
  c ∈ squeeze P [r] b s → (c ∈ s ∧ P c = false) ∨ c = r.
Proof.
  revert b. induction s as [|a tl IH]; intros b; cbn; [by intros ?%elem_of_nil|].
  destruct (P a) eqn:E.
  - destruct b; cbn.
    + intros [[? ?]|?]%IH; [left; split; [by right|done] | by right].
    + intros [->|[[? ?]|?]%IH]%elem_of_cons; [by right | left | by right].
      split; [by right|done].
  - intros [->|[[? ?]|?]%IH]%elem_of_cons.
    + left. split; [by left|done].
    + left. split; [by right|done].
    + by right.
Qed.

(** Whatever a match returns is handed to its continuation at a position
    further on, and every group is a piece of the text. *)
Section Groups.
Variable text : pystr.
Local Abbreviation groups_in := (groups_within text).

Lemma rep_max_inv ic c rest :
  ∀ lo hi prev e k res,
    rep_max ic c lo hi prev rest e k = Some res →
    ∃ p1 s1, s1 `suffix_of` rest ∧ k p1 s1 e = Some res.
Proof.
  induction rest as [|ch tl IH]; intros lo hi prev e k res; cbn.
  - destruct lo; [|done]. intros Hk. by exists prev, [].
  - assert (match lo with 0 => k prev (ch :: tl) e | S _ => None end = Some res →
            ∃ p1 s1, s1 `suffix_of` ch :: tl ∧ k p1 s1 e = Some res) as Hstop.
    { destruct lo; [|done]. intros Hk. by exists prev, (ch :: tl). }
    destruct (chr_match ic c ch && hi_open hi); [|done].
    destruct (rep_max ic c (pred lo) (pred <$> hi) (Some ch) tl e k) eqn:E; cbn;
      [|done].
    intros [= <-]. apply IH in E as (p1 & s1 & Hs & Hk).
    exists p1, s1. split; [by apply suffix_cons_r|done].
Qed.

Lemma rep_min_inv ic c rest :
  ∀ lo hi prev e k res,
    rep_min ic c lo hi prev rest e k = Some res →
    ∃ p1 s1, s1 `suffix_of` rest ∧ k p1 s1 e = Some res.
Proof.
  induction rest as [|ch tl IH]; intros lo hi prev e k res; cbn.
  - destruct lo; [|done]. intros Hk. by exists prev, [].
  - assert (match lo with 0 => k prev (ch :: tl) e | S _ => None end = Some res →
            ∃ p1 s1, s1 `suffix_of` ch :: tl ∧ k p1 s1 e = Some res) as Hstop.
    { destruct lo; [|done]. intros Hk. by exists prev, (ch :: tl). }
    destruct (chr_match ic c ch && hi_open hi); [|done].
    destruct (match lo with 0 => k prev (ch :: tl) e | S _ => None end) eqn:E;
      cbn; [intros [= <-]; by apply Hstop|].
    intros (p1 & s1 & Hs & Hk)%IH.
    exists p1, s1. split; [by apply suffix_cons_r|done].
Qed.

Lemma ref_match_suffix ic w :
  ∀ prev rest p1 s1,
    ref_match ic w prev rest = Some (p1, s1) → s1 `suffix_of` rest.
Proof.
  induction w as [|a w IH]; intros prev rest p1 s1; cbn.
  - by intros [= _ ->].
  - destruct rest as [|ch tl]; [done|].
    destruct (if ic then _ else _); [|done].
    intros ?%IH. by apply suffix_cons_r.
Qed.

Lemma rmatch_inv ic r :
  ∀ prev rest e k res,
    rest `suffix_of` text → groups_in e →
    rmatch ic r prev rest e k = Some res →
    ∃ p1 s1 e1, s1 `suffix_of` rest ∧ groups_in e1 ∧ k p1 s1 e1 = Some res.
Proof.
  induction r as [c|lo hi greedy c|a|r1 IH1 r2 IH2|r1 IH1 r2 IH2|g r1 IH1|g|];
    intros prev rest e k res Hrest He; cbn [rmatch].
  - destruct rest as [|ch tl]; [done|]. destruct (chr_match ic c ch); [|done].
    intros Hk. exists (Some ch), tl, e. split; [by apply suffix_cons_r|done].
  - destruct greedy.
    + intros (p1 & s1 & ? & ?)%rep_max_inv. by exists p1, s1, e.
    + intros (p1 & s1 & ? & ?)%rep_min_inv. by exists p1, s1, e.
  - destruct (at_match a prev rest); [|done]. intros Hk. by exists prev, rest, e.
  - intros (p1 & s1 & e1 & Hs1 & He1 & Hk)%IH1; [|done..].
    apply IH2 in Hk as (p2 & s2 & e2 & Hs2 & He2 & Hk); [|by etrans|done].
    exists p2, s2, e2. split; [by etrans|done].
  - destruct (rmatch ic r1 prev rest e k) eqn:E; cbn.
    + intros [= <-]. by apply IH1 in E.
    + by apply IH2.
  - intros (p1 & s1 & e1 & Hs1 & He1 & Hk)%IH1; [|done..].
    eexists p1, s1, _. split; [done|]. split; [|exact Hk].
    constructor; [|done]. cbn. etrans; [apply sublist_take|].
    destruct Hrest as [pre ->]. by apply sublist_inserts_l.
  - destruct (group_lookup g e) as [w|]; [|done].
    destruct (ref_match ic w prev rest) as [[p1 s1]|] eqn:E; [|done].
    intros Hk. exists p1, s1, e. split; [by eapply ref_match_suffix|done].
  - intros Hk. by exists prev, rest, e.
Qed.

End Groups.

Lemma group_lookup_elem g e w : group_lookup g e = Some w → (g, w) ∈ e.
Proof.
  induction e as [|[g1 w1] e IH]; cbn; [done|].
  destruct (g1 =? g) eqn:E.
  - intros [= ->]. apply Nat.eqb_eq in E as ->. by left.
  - intros ?%IH. by right.
Qed.

Lemma re_match_group_sublist p s m :
  re_match p s = Some m → group_x m `sublist_of` s.
Proof.
  unfold re_match, match_here.
  destruct (rmatch _ _ _ _ _ _) as [[s1 e1]|] eqn:E; [|done].
  cbn. intros [= <-].
  apply (rmatch_inv s) in E as (p1 & s2 & e2 & _ & He & Hk); [|done|constructor].
  cbn in Hk. injection Hk as <- <-.
  unfold group_x. destruct (group_lookup 1 e2) as [w|] eqn:Hw; cbn.
  - apply group_lookup_elem in Hw.
    by apply (proj1 (Forall_forall _ _) He _ Hw).
  - apply sublist_nil_l.
Qed.

End EngineFacts.

(** ** What the normalisers do to every text *)

Section NormalizerFacts.
Context {U : Unicode}.

Lemma lstrip_suffix s : lstrip s `suffix_of` s.
Proof.
  induction s as [|c tl IH]; cbn; [done|].
  destruct (isspace c); [by apply suffix_cons_r | done].
Qed.

Lemma lstrip_head_not_space s c : head (lstrip s) = Some c → isspace c = false.
Proof.
  induction s as [|a tl IH]; cbn; [done|].
  destruct (isspace a) eqn:E; [done|]. cbn. by intros [= <-].
Qed.

Lemma lstrip_blank s : (∀ c, c ∈ s → isspace c = true) → lstrip s = [].
Proof.
  induction s as [|a tl IH]; intros Hs; cbn; [done|].
  rewrite (Hs a) by by left. apply IH. intros c Hc. apply Hs. by right.
Qed.

Lemma strip_sublist s : strip s `sublist_of` s.
Proof.
  unfold strip, rstrip. destruct (lstrip_suffix s) as [k1 Hk1].
  destruct (lstrip_suffix (reverse (lstrip s))) as [k2 Hk2].
  apply (f_equal reverse) in Hk2. rewrite reverse_involutive, reverse_app in Hk2.
  rewrite Hk1 at 2. apply sublist_inserts_l. rewrite Hk2 at 2.
  by apply sublist_inserts_r.
Qed.

Lemma trimmed_strip s : trimmed (strip s) = true.
Proof.
  unfold strip, rstrip, trimmed. set (t := lstrip s).
  destruct (lstrip_suffix (reverse t)) as [k Hk].
  set (r := lstrip (reverse t)) in *.
  apply andb_true_intro. split.
  - destruct r as [|c r'] eqn:Er; [done|].
    apply (f_equal reverse) in Hk. rewrite reverse_involutive, reverse_app in Hk.
    assert (head (reverse (c :: r')) = head t) as Hh.
    { rewrite Hk. destruct (reverse (c :: r')) eqn:E'; [|done].
      apply (f_equal reverse) in E'. by rewrite reverse_involutive in E'. }
    destruct (reverse (c :: r')) as [|a l]; [done|].
    cbn in Hh. symmetry in Hh. apply lstrip_head_not_space in Hh. by rewrite Hh.
  - destruct r as [|c r'] eqn:Er; [done|].
    rewrite reverse_cons, last_snoc.
    assert (isspace c = false) as ->; [|done].
    apply (lstrip_head_not_space (reverse t)). fold r. by rewrite Er.
Qed.

Lemma shrinks_refl s : shrinks s s.
Proof. split; [done | auto]. Qed.

Lemma shrinks_trans s t v : shrinks s t → shrinks t v → shrinks s v.
Proof.
  intros [Hl1 He1] [Hl2 He2]. split; [lia|].
  intros c [Hc| ->]%He1; [by apply He2 | by right].
Qed.

Lemma sublist_shrinks s t : s `sublist_of` t → shrinks s t.
Proof.
  intros Hs. split; [by apply sublist_length|].
  intros c Hc. left. by eapply elem_of_sublist.
Qed.

Lemma shrinks_strip s t : shrinks s t → shrinks (strip s) t.
Proof. intros. eapply shrinks_trans; [apply sublist_shrinks, strip_sublist|done]. Qed.

Lemma shrinks_delete p s t : shrinks s t → shrinks (re_sub p [] s) t.
Proof.
  intros. eapply shrinks_trans; [apply sublist_shrinks, re_sub_delete_sublist|done].
Qed.

Lemma shrinks_spaces s t : shrinks s t → shrinks (re_sub RE_SPACES (u " ") s) t.
Proof.
  intros. eapply shrinks_trans; [|done]. unfold RE_SPACES.
  rewrite re_sub_plus. change (u " ") with [32%N]. split.
  - apply squeeze_length.
  - intros c [[? _]| ->]%squeeze_elem; auto.
Qed.

Lemma shrinks_halves s t :
  shrinks s t →
  shrinks (match re_match RE_HALVES s with
           | Some m => strip (group_x m)
           | None => s
           end) t.
Proof.
  intros Hs. destruct (re_match RE_HALVES s) as [m|] eqn:E; [|done].
  apply shrinks_strip. apply (shrinks_trans _ s); [|done].
  apply sublist_shrinks, (re_match_group_sublist _ _ _ E).
Qed.

Ltac shrink_steps :=
  repeat first [ apply shrinks_halves | apply shrinks_strip
               | apply shrinks_delete | apply shrinks_spaces ];
  apply shrinks_refl.

Lemma westfield_shrinks raw : shrinks (westfield_scraper.clean_store_name raw) raw.
Proof.
  unfold westfield_scraper.clean_store_name.
  destruct raw as [|c tl] eqn:E; [apply shrinks_refl|].
  rewrite <- E. cbv zeta. shrink_steps.
Qed.

Lemma jan_shrinks raw : shrinks (webscraper_jan.clean_store_name raw) raw.
Proof.
  unfold webscraper_jan.clean_store_name.
  destruct raw as [|c tl] eqn:E; [apply shrinks_refl|].
  rewrite <- E. cbv zeta. shrink_steps.
Qed.

Lemma strip_blank s : (∀ c, c ∈ s → isspace c = true) → strip s = [].
Proof. intros Hs. unfold strip. by rewrite lstrip_blank. Qed.

End NormalizerFacts.

(** X3: a normaliser never returns more characters than it is given, and
    every character it returns is a character of its input or the space
    U+0020, in [westfield_scraper.py] and in [webscraper_jan.py]. *)
Theorem normalize_only_shrinks `{U : Unicode} (raw : pystr) :
  (length (westfield_scraper.clean_store_name raw) ≤ length raw
   ∧ ∀ c, c ∈ westfield_scraper.clean_store_name raw → c ∈ raw ∨ c = 32%N)
  ∧ (length (webscraper_jan.clean_store_name raw) ≤ length raw
     ∧ ∀ c, c ∈ webscraper_jan.clean_store_name raw → c ∈ raw ∨ c = 32%N).
Proof. split; [apply westfield_shrinks | apply jan_shrinks]. Qed.

(** X4: text that is empty or all white space is normalised to the empty
    string, in both files. *)
Theorem normalize_blank `{U : Unicode} (raw : pystr) :
  (∀ c, c ∈ raw → isspace c = true) →
  westfield_scraper.clean_store_name raw = []
  ∧ webscraper_jan.clean_store_name raw = [].
Proof.
  intros Hs%strip_blank.
  unfold westfield_scraper.clean_store_name, webscraper_jan.clean_store_name.
  destruct raw as [|c tl] eqn:E; [done|]. rewrite <- E in *. cbv zeta.
  rewrite Hs. split; reflexivity.
Qed.

Lemma normalize_blank_witness :
  (∀ c, c ∈ u "  " → isspace c = true)
  ∧ westfield_scraper.clean_store_name (u "  ") = []
  ∧ webscraper_jan.clean_store_name (u "  ") = [].
Proof.
  assert (∀ c, c ∈ u "  " → isspace c = true) as Hs.
  { intros c Hc. change (u "  ") with [32%N; 32%N] in Hc.
    apply elem_of_cons in Hc as [->|Hc]; [reflexivity|].
    apply elem_of_cons in Hc as [->|Hc]; [reflexivity|].
    by apply elem_of_nil in Hc. }
  split; [exact Hs|]. apply (normalize_blank (u "  ")). exact Hs.
Defined.

(** X5: the normaliser of [webscraper_jan.py] returns text without white
    space at either end. *)
Theorem jan_normalize_trimmed `{U : Unicode} (raw : pystr) :
  trimmed (webscraper_jan.clean_store_name raw) = true.
Proof.
  unfold webscraper_jan.clean_store_name. destruct raw as [|c tl]; [done|].
  cbv zeta. destruct (re_match _ _); apply trimmed_strip.
Qed.

(** ** The slug of a URL and the name of its file *)

Section ReplaceFacts.

Lemma replace_from_skip old new pre rest :
  replace_from old new (length pre) (pre ++ rest) = replace_from old new 0 rest.
Proof.
  induction pre as [|c pre IH]; [done|]. cbn. exact IH.
Qed.

Lemma replace_from_absent old new s :
  contains old s = false → replace_from old new 0 s = s.
Proof.
  induction s as [|c tl IH]; [done|]. cbn [contains replace_from].
  intros [Hs Htl]%orb_false_elim. rewrite Hs. f_equal. by apply IH.
Qed.

Lemma replace_from_delete_length old s :
  ∀ skip, length (replace_from old [] skip s) ≤ length s.
Proof.
  induction s as [|c tl IH]; intros skip; [done|]. cbn.
  destruct skip as [|n]; [|specialize (IH n); lia].
  destruct (startswith old (c :: tl)); cbn.
  - specialize (IH (length old - 1)). lia.
  - specialize (IH 0). lia.
Qed.

Lemma startswith_head old c tl :
  head old ≠ Some c → old ≠ [] → startswith old (c :: tl) = false.
Proof.
  destruct old as [|a old]; [done|]. cbn. intros Hh _.
  destruct (N.eqb_spec a c) as [->|]; [done|done].
Qed.

Lemma replace_from_through old new s t :
  old ≠ [] → (∀ c, c ∈ s → head old ≠ Some c) →
  replace_from old new 0 (s ++ t) = s ++ replace_from old new 0 t.
Proof.
  intros Hold. induction s as [|c tl IH]; intros Hs; [done|].
  cbn [app replace_from]. rewrite startswith_head; [|apply Hs; by left|done].
  f_equal. apply IH. intros c' Hc'. apply Hs. by right.
Qed.

End ReplaceFacts.

Section SlugFacts.
Context {U : Unicode}.
Import westfield_scraper export_westfield_to_excel.

Local Abbreviation not_slug :=
  (chr_match false (IN true (range_items (ord "a") 26 ++ range_items (ord "0") 10))).

Lemma range_items_match lo n ch :
  existsb (fun it => item_match false it ch) (range_items lo n)
  = ((lo <=? ch) && (ch <? lo + N.of_nat n))%N.
Proof.
  revert lo. induction n as [|n IH]; intros lo.
  - cbn. symmetry. apply andb_false_iff.
    destruct (N.leb_spec lo ch); [right; apply N.ltb_ge; lia | by left].
  - cbn [range_items existsb item_match]. rewrite IH, Nat2N.inj_succ.
    apply Bool.eq_iff_eq_true.
    rewrite orb_true_iff, !andb_true_iff, N.eqb_eq, !N.leb_le, !N.ltb_lt. lia.
Qed.

Lemma not_slug_spec ch :
  not_slug ch = negb (between 97 122 ch || between 48 57 ch).
Proof.
  unfold chr_match. cbn [andb]. rewrite Bool.xorb_true_l.
  rewrite existsb_app, !range_items_match.
  change (ord "a") with 97%N. change (ord "0") with 48%N. unfold between.
  f_equal. apply Bool.eq_iff_eq_true.
  rewrite !orb_true_iff, !andb_true_iff, !N.leb_le, !N.ltb_lt. cbn. lia.
Qed.

Lemma squeeze_true_head P x s : P x = true → head (squeeze P [x] true s) ≠ Some x.
Proof.
  intros Hx. induction s as [|c tl IH]; cbn; [done|].
  destruct (P c) eqn:E; [done|]. cbn. intros [= ->]. congruence.
Qed.

Lemma squeeze_no_pair P x s :
  P x = true → ∀ b pre post, squeeze P [x] b s ≠ pre ++ x :: x :: post.
Proof.
  intros Hx. induction s as [|c tl IH]; intros b pre post; cbn.
  - by destruct pre.
  - destruct (P c) eqn:E.
    + destruct b; cbn; [apply IH|].
      destruct pre as [|y pre]; cbn.
      * intros [= Hs]. by apply (squeeze_true_head P x tl Hx); rewrite Hs.
      * intros [= _ Hs]. by apply IH in Hs.
    + destruct pre as [|y pre]; cbn.
      * intros [= -> _]. congruence.
      * intros [= _ Hs]. by apply IH in Hs.
Qed.

Lemma lstrip_chars_suffix chars s : lstrip_chars chars s `suffix_of` s.
Proof.
  induction s as [|c tl IH]; cbn; [done|].
  destruct (mem c chars); [by apply suffix_cons_r | done].
Qed.

Lemma lstrip_chars_head chars s c :
  head (lstrip_chars chars s) = Some c → mem c chars = false.
Proof.
  induction s as [|a tl IH]; cbn; [done|].
  destruct (mem a chars) eqn:E; [done|]. cbn. by intros [= <-].
Qed.

Lemma strip_chars_infix chars s : ∃ l r, s = l ++ strip_chars chars s ++ r.
Proof.
  unfold strip_chars. destruct (lstrip_chars_suffix chars s) as [k1 Hk1].
  destruct (lstrip_chars_suffix chars (reverse (lstrip_chars chars s))) as [k2 Hk2].
  apply (f_equal reverse) in Hk2. rewrite reverse_involutive, reverse_app in Hk2.
  exists k1, (reverse k2). by rewrite <- Hk2.
Qed.

Lemma strip_chars_ends chars s :
  (∀ c, head (strip_chars chars s) = Some c → mem c chars = false)
  ∧ (∀ c, last (strip_chars chars s) = Some c → mem c chars = false).
Proof.
  unfold strip_chars. set (t := lstrip_chars chars s).
  destruct (lstrip_chars_suffix chars (reverse t)) as [k Hk].
  set (r := lstrip_chars chars (reverse t)) in *.
  split; intros c.
  - destruct r as [|a r'] eqn:Er; [done|].
    apply (f_equal reverse) in Hk. rewrite reverse_involutive, reverse_app in Hk.
    assert (head (reverse (a :: r')) = head t) as Hh.
    { rewrite Hk. destruct (reverse (a :: r')) eqn:E'; [|done].
      apply (f_equal reverse) in E'. by rewrite reverse_involutive in E'. }
    rewrite Hh. apply lstrip_chars_head.
  - destruct r as [|a r'] eqn:Er; [done|].
    rewrite reverse_cons, last_snoc. intros [= <-].
    apply (lstrip_chars_head chars (reverse t)). fold r. by rewrite Er.
Qed.

Lemma slug_squeeze netloc path :
  westfield_scraper.slug netloc path
  = strip_chars [95%N] (squeeze not_slug [95%N] false (str_lower (netloc ++ path))).
Proof. unfold westfield_scraper.slug, RE_SLUG. by rewrite re_sub_plus. Qed.

Lemma slug_facts netloc path :
  (∀ c, c ∈ westfield_scraper.slug netloc path → slug_char c = true)
  ∧ head (westfield_scraper.slug netloc path) ≠ Some 95%N
  ∧ last (westfield_scraper.slug netloc path) ≠ Some 95%N
  ∧ (∀ pre post,
       westfield_scraper.slug netloc path ≠ pre ++ [95%N; 95%N] ++ post).
Proof.
  rewrite slug_squeeze. set (sq := squeeze _ _ _ _).
  destruct (strip_chars_infix [95%N] sq) as (l & r & Hsq).
  destruct (strip_chars_ends [95%N] sq) as [Hh Hl].
  repeat apply conj.
  - intros c Hc. assert (c ∈ sq) as Hin by (rewrite Hsq; set_solver).
    apply squeeze_elem in Hin as [[_ Hn]| ->]; [|done].
    rewrite not_slug_spec in Hn. apply negb_false_iff in Hn.
    unfold slug_char. by rewrite Hn.
  - intros Hc. by apply Hh in Hc.
  - intros Hc. by apply Hl in Hc.
  - intros pre post Heq. rewrite Heq in Hsq.
    apply (squeeze_no_pair not_slug 95%N (str_lower (netloc ++ path)) eq_refl
             false (l ++ pre) (post ++ r)).
    fold sq. rewrite Hsq. by rewrite <- !app_assoc.
Qed.

End SlugFacts.

(** X6: the slug of a URL has only lower-case ASCII letters, ASCII digits
    and underscores, no underscore at either end and no two underscores
    side by side. *)
Theorem slug_wellformed `{U : Unicode} (netloc path : pystr) :
  (∀ c, c ∈ westfield_scraper.slug netloc path → slug_char c = true)
  ∧ head (westfield_scraper.slug netloc path) ≠ Some 95%N
  ∧ last (westfield_scraper.slug netloc path) ≠ Some 95%N
  ∧ (∀ pre post,
       westfield_scraper.slug netloc path ≠ pre ++ [95%N; 95%N] ++ post).
Proof. apply slug_facts. Qed.


Section FileNames.
Import westfield_scraper export_westfield_to_excel.

Lemma startswith_app k s : startswith k (k ++ s) = true.
Proof. induction k as [|a k IH]; [done|]. cbn. by rewrite N.eqb_refl. Qed.

Lemma startswith_length k s : startswith k s = true → length k ≤ length s.
Proof.
  revert s. induction k as [|a k IH]; intros s; cbn; [lia|].
  destruct s as [|b s]; [done|]. intros [_ ?%IH]%andb_prop. cbn. lia.
Qed.

Lemma replace_nonempty old new s :
  old ≠ [] → replace old new s = replace_from old new 0 s.
Proof. by destruct old. Qed.

Lemma replace_from_prefix old new s :
  old ≠ [] → replace_from old new 0 (old ++ s) = new ++ replace_from old new 0 s.
Proof.
  destruct old as [|a old]; [done|]. intros _.
  pose proof (startswith_app (a :: old) s) as Hs. cbn [app] in *.
  cbn [replace_from]. rewrite Hs. f_equal.
  replace (length (a :: old) - 1) with (length old) by (cbn; lia).
  apply replace_from_skip.
Qed.

Lemma replace_from_delete_skip old s :
  ∀ skip, length (replace_from old [] skip s) + min skip (length s) ≤ length s.
Proof.
  induction s as [|c tl IH]; intros skip; [cbn; lia|]. cbn [replace_from].
  destruct skip as [|n]; [|specialize (IH n); cbn; lia].
  destruct (startswith old (c :: tl)); cbn.
  - pose proof (replace_from_delete_length old tl (length old - 1)). lia.
  - pose proof (replace_from_delete_length old tl 0). lia.
Qed.

Lemma replace_from_removes old s :
  old ≠ [] → contains old s = true →
  length (replace_from old [] 0 s) + length old ≤ length s.
Proof.
  intros Hold. induction s as [|c tl IH]; cbn [contains replace_from].
  - destruct old; [done|]. cbn. done.
  - destruct (startswith old (c :: tl)) eqn:E; cbn [orb app].
    + intros _. apply startswith_length in E. cbn in E.
      pose proof (replace_from_delete_skip old tl (length old - 1)).
      destruct old; [done|]. cbn in *. lia.
    + intros Htl. specialize (IH Htl). cbn. lia.
Qed.

Lemma contains_app_l old s t :
  contains old s = true → contains old (s ++ t) = true.
Proof.
  rewrite !contains_spec. intros (pre & post & ->).
  exists pre, (post ++ t). by rewrite <- !app_assoc.
Qed.

(** An occurrence of [old] in [s ++ t] is in [s], or ends in [t]. *)
Lemma contains_app_last old s t :
  contains old (s ++ t) = true →
  contains old s = true ∨ ∃ c, last old = Some c ∧ c ∈ t.
Proof.
  rewrite !contains_spec. intros (pre & post & Heq).
  rewrite app_assoc in Heq.
  apply app_eq_inv in Heq as [(k & -> & Hk)|(k & Hk & ->)].
  - left. exists pre, k. by rewrite <- app_assoc.
  - destruct (decide (k = [])) as [->|Hne].
    + left. exists pre, []. rewrite (right_id_L [] app) in Hk.
      rewrite (right_id_L [] app). done.
    + destruct old as [|a old] using rev_ind.
      * left. exists s, []. cbn. symmetry. apply app_nil_r.
      * right. exists a. rewrite last_snoc. split; [done|].
        destruct k as [|b k] using rev_ind; [done|].
        rewrite !app_assoc in Hk. apply app_inj_tail in Hk as [_ ->].
        set_solver.
Qed.

Lemma slug_of_fname_per_filename (sl : pystr) :
  (∀ c, c ∈ sl → c ≠ 46%N) →
  slug_of_fname (per_filename sl) = sl ↔
  contains (u "westfield_stores_") sl = false.
Proof.
  intros Hdot. unfold slug_of_fname, per_filename.
  set (old := u "westfield_stores_").
  assert (old ≠ []) as Hold by done.
  assert (u ".json" ≠ []) as Hjson by done.
  rewrite !replace_nonempty by done.
  rewrite (replace_from_prefix old [] _ Hold). cbn [app].
  split.
  - intros Heq. destruct (contains old sl) eqn:E; [exfalso|done].
    pose proof (replace_from_removes old (sl ++ u ".json") Hold
                  (contains_app_l _ _ _ E)) as Hlen.
    pose proof (replace_from_delete_length (u ".json")
                  (replace_from old [] 0 (sl ++ u ".json")) 0) as Hlen2.
    rewrite Heq in Hlen2. rewrite length_app in Hlen.
    change (length old) with 17 in Hlen. change (length (u ".json")) with 5 in Hlen.
    lia.
  - intros Habs. rewrite (replace_from_absent old).
    + rewrite (replace_from_through (u ".json")); [|done|].
      * assert (replace_from (u ".json") [] 0 (u ".json") = []) as ->
          by reflexivity.
        apply app_nil_r.
      * intros c Hc [= <-]. by apply (Hdot _ Hc).
    + destruct (contains old (sl ++ u ".json")) eqn:E; [|done].
      apply contains_app_last in E as [E|(c & Hl & Hc)]; [congruence|].
      change (last old) with (Some 95%N) in Hl. injection Hl as <-.
      change (u ".json") with [46%N; 106%N; 115%N; 111%N; 110%N] in Hc.
      set_solver.
Qed.

End FileNames.

(** X7: the exporter recovers the slug of a URL from the name of its
    per-URL file exactly when the slug does not contain the text
    ["westfield_stores_"], which the exporter deletes wherever it occurs. *)
Theorem slug_round_trip `{U : Unicode} (netloc path : pystr) :
  export_westfield_to_excel.slug_of_fname
    (westfield_scraper.per_filename (westfield_scraper.slug netloc path))
  = westfield_scraper.slug netloc path
  ↔ contains (u "westfield_stores_") (westfield_scraper.slug netloc path) = false.
Proof.
  apply slug_of_fname_per_filename. intros c Hc ->.
  by apply (proj1 (slug_facts netloc path)) in Hc.
Qed.

(** ** The run of [westfield_scraper.py], site by site *)

Section KeepFirstMore.
Context {A K : Type} `{Countable K}.
Variable key : A → K.
Variable ok : A → bool.

(** The loop leaves a list as it is when every element is wanted and no
    key occurs twice. *)
Lemma keep_first_id seen l :
  NoDup (key <$> l) → (∀ x, x ∈ l → ok x = true ∧ key x ∉ seen) →
  keep_first key ok seen l = l.
Proof.
  revert seen. induction l as [|a tl IH]; intros seen Hnd Hall; [done|].
  cbn in *. apply NoDup_cons in Hnd as [Ha Hnd].
  destruct (Hall a ltac:(by left)) as [-> Hs]. cbn.
  rewrite bool_decide_eq_true_2 by done. f_equal.
  apply IH; [done|]. intros x Hx. destruct (Hall x ltac:(by right)) as [? ?].
  split; [done|]. apply not_elem_of_union. split; [done|].
  intros Heq%elem_of_singleton. apply Ha. rewrite <- Heq.
  by apply list_elem_of_fmap_2.
Qed.

Lemma keep_first_idem l :
  keep_first key ok ∅ (keep_first key ok ∅ l) = keep_first key ok ∅ l.
Proof.
  apply keep_first_id; [apply keep_first_keys_NoDup|].
  intros x (_ & ? & ?)%keep_first_elem. done.
Qed.

End KeepFirstMore.

Lemma filter_ext_in {A} (P1 P2 : A → Prop)
    `{!∀ x, Decision (P1 x), !∀ x, Decision (P2 x)} (l : list A) :
  (∀ x, x ∈ l → P1 x ↔ P2 x) → filter P1 l = filter P2 l.
Proof.
  induction l as [|a l IH]; intros Hiff; [done|].
  rewrite !filter_cons. rewrite IH by (intros x Hx; apply Hiff; by right).
  apply decide_ext, Hiff. by left.
Qed.

Section SiteBySite.
Context {U : Unicode}.
Import westfield_scraper.

Lemma main_step_loop urls : ∀ st,
  for_each main_step st urls
  = Value (st.1 ++ (source_list <$> urls),
           st.2 ++ concat ((fun s => display_lines (site_title s) (source_list s))
                             <$> urls)).
Proof.
  induction urls as [|s tl IH]; intros st.
  - cbn. rewrite !app_nil_r. by destruct st.
  - cbn [for_each]. rewrite main_step_spec. cbn. rewrite IH. cbn.
    by rewrite <- !app_assoc.
Qed.

Lemma per_unique_NoDup names :
  NoDup names → ([] ∉ names) →
  per_unique names
  = filter (fun x => str_lower (strip x) ∉ stop_headers) names.
Proof.
  intros Hnd Hne. rewrite per_unique_spec.
  rewrite keep_first_id; [|by rewrite list_fmap_id|set_solver].
  apply filter_ext_in. intros x Hx. split; [by intros [_ ?]|].
  intros ?. split; [|done]. by intros ->.
Qed.

Lemma per_unique_idem names : per_unique (per_unique names) = per_unique names.
Proof.
  destruct (per_unique_facts names) as (Hnd & _ & Hmem & _).
  rewrite (per_unique_NoDup (per_unique names)); [|done|].
  - rewrite per_unique_spec at 1. rewrite per_unique_spec.
    rewrite list_filter_filter. apply list_filter_iff. tauto.
  - intros Hin. apply Hmem in Hin. tauto.
Qed.

End SiteBySite.

(** X8: a run of [main] treats every site by itself: its per-URL lists are
    those of the sites in URL order, and the grouped view is their blocks
    one after the other, each a header line followed by the names of the
    site numbered from 1; a name that two sites have is listed under
    both. *)
Theorem main_site_by_site `{U : Unicode} (urls : list westfield_scraper.site) :
  westfield_scraper.main urls
  = Value (source_list <$> urls,
           concat ((fun s => westfield_scraper.display_lines
                               (westfield_scraper.site_title s) (source_list s))
                     <$> urls))
  ∧ (∀ t names,
       length (westfield_scraper.display_lines t names) = S (length names)
       ∧ westfield_scraper.display_lines t names !! 0
         = Some (u "== " ++ t ++ u " ==")
       ∧ ∀ i, westfield_scraper.display_lines t names !! S i
              = (fun nm => westfield_scraper.decimal (S i) ++ u ". " ++ nm)
                  <$> names !! i).
Proof.
  split; [apply (main_step_loop urls ([], []))|].
  intros t names. unfold westfield_scraper.display_lines.
  repeat apply conj; [by rewrite length_cons, length_imap | done |].
  intros i. etrans; [apply (list_lookup_imap _ names i)|done].
Qed.

(** X9: on the names that [extract_store_links] returns, the exact-match
    pass of [main] changes nothing: the per-URL list is the extracted names
    without the header names. *)
Theorem per_unique_after_extraction `{U : Unicode} (pg : page) (names : list pystr) :
  westfield_scraper.extract_store_links pg = Value names →
  westfield_scraper.per_unique names
  = filter (fun x => str_lower (strip x) ∉ westfield_scraper.stop_headers) names.
Proof.
  intros He.
  destruct (extract_names_ordered westfield_scraper.clean_store_name pg)
    as (names' & He' & Hne & Hnd & _).
  unfold westfield_scraper.extract_store_links in He. rewrite He in He'.
  injection He' as <-. by apply per_unique_NoDup.
Qed.

Lemma per_unique_after_extraction_witness :
  westfield_scraper.extract_store_links two_anchor_page
  = Value [u "Nike"; u "Butik"]
  ∧ westfield_scraper.per_unique [u "Nike"; u "Butik"]
    = filter (fun x => str_lower (strip x) ∉ westfield_scraper.stop_headers)
        [u "Nike"; u "Butik"].
Proof.
  assert (westfield_scraper.extract_store_links two_anchor_page
          = Value [u "Nike"; u "Butik"]) as He by (vm_compute; reflexivity).
  split; [exact He|].
  apply (per_unique_after_extraction two_anchor_page). exact He.
Defined.

(** X10: the per-source pass of [main] is idempotent. *)
Theorem per_unique_idempotent `{U : Unicode} (names : list pystr) :
  westfield_scraper.per_unique (westfield_scraper.per_unique names)
  = westfield_scraper.per_unique names.
Proof. apply per_unique_idem. Qed.

(** ** More of the exporter *)

Section UniqueSheet.
Context {U : Unicode}.
Import export_westfield_to_excel.

Lemma dedup_sublist rows : dedup rows `sublist_of` (prod_swap <$> rows).
Proof.
  rewrite dedup_spec. apply fmap_sublist, keep_first_sublist.
Qed.

Lemma dedup_again rows : dedup (prod_swap <$> dedup rows) = dedup rows.
Proof.
  rewrite (dedup_spec rows), <- list_fmap_compose.
  rewrite (list_fmap_ext _ id) by (by intros i [a b] _).
  rewrite list_fmap_id, dedup_spec. by rewrite keep_first_idem.
Qed.

End UniqueSheet.

(** X11: the unique sheet is a subsequence of the merged rows, each with
    its two columns exchanged, so it is never longer; building it again
    from its own rows gives it back; and a file that cannot be read adds
    no row. *)
Theorem unique_sheet_stable `{U : Unicode} :
  (∀ rows,
     export_westfield_to_excel.dedup rows `sublist_of` (prod_swap <$> rows)
     ∧ length (export_westfield_to_excel.dedup rows) ≤ length rows
     ∧ export_westfield_to_excel.dedup
         (prod_swap <$> export_westfield_to_excel.dedup rows)
       = export_westfield_to_excel.dedup rows)
  ∧ (∀ sl pre post,
       export_westfield_to_excel.merged_rows
         (pre ++ export_westfield_to_excel.JsonFile sl Exception :: post)
       = export_westfield_to_excel.merged_rows (pre ++ post)).
Proof.
  split.
  - intros rows. pose proof (dedup_sublist rows) as Hs.
    repeat apply conj; [done| |apply dedup_again].
    apply sublist_length in Hs. by rewrite length_fmap in Hs.
  - intros sl pre post. by rewrite !merged_rows_app.
Qed.

(** ** Where the extracted names come from *)

Section Provenance.
Context {U : Unicode}.
Variable clean : pystr → pystr.

Lemma anchor_offer_inv a x :
  anchor_offer clean a = Some x →
  ∃ t h, inner_text a = Value t ∧ get_attribute_href a = Value h
         ∧ candidate_filter (strip (or_empty t)) (or_empty h) = true
         ∧ x = clean (strip (or_empty t)).
Proof.
  unfold anchor_offer. destruct (inner_text a) as [t|]; [|done].
  destruct (get_attribute_href a) as [h|]; [|done].
  destruct (candidate_filter _ _) eqn:E; [|done].
  intros [= <-]. by exists t, h.
Qed.

Lemma fallback_offer_inv el x :
  fallback_offer clean el = Some x →
  ∃ t, inner_text el = Value t ∧ x = clean (strip (or_empty t)).
Proof.
  unfold fallback_offer. destruct (inner_text el) as [t|]; [|done].
  intros [= <-]. by exists t.
Qed.

Lemma extract_names_provenance pg names x :
  extract_names clean pg = Value names → x ∈ names →
  x ≠ [] ∧
  ((∃ a t h, a ∈ anchors pg ∧ inner_text a = Value t
             ∧ get_attribute_href a = Value h
             ∧ candidate_filter (strip (or_empty t)) (or_empty h) = true
             ∧ x = clean (strip (or_empty t)))
   ∨ (accepted_primary clean pg = []
      ∧ ∃ el t, el ∈ candidates pg ∧ inner_text el = Value t
                ∧ x = clean (strip (or_empty t)))).
Proof.
  intros He Hx.
  destruct (extract_names_ordered clean pg) as (names' & He' & _ & _ & _ & Hmem & _).
  rewrite He in He'. injection He' as <-. apply Hmem in Hx.
  unfold accepted in Hx. destruct (accepted_primary clean pg) as [|y l] eqn:E.
  - unfold accepted_fallback in Hx.
    apply list_elem_of_filter in Hx as [Hne (el & Hel & Ho)%list_elem_of_omap].
    apply fallback_offer_inv in Ho as (t & Ht & ->).
    split; [done|]. right. split; [done|]. by exists el, t.
  - rewrite <- E in Hx. unfold accepted_primary in Hx.
    apply list_elem_of_filter in Hx as [Hne (a & Ha & Ho)%list_elem_of_omap].
    apply anchor_offer_inv in Ho as (t & h & Ht & Hh & Hf & ->).
    split; [done|]. left. by exists a, t, h.
Qed.

End Provenance.

(** X12: every name that [extract_store_links] returns is not empty and
    is the normalised trimmed text of an element of the page that could be
    read: of an anchor that passes the filter, or, when no anchor was
    accepted, of an element of the fallback scan. *)
Theorem extracted_names_come_from_page `{U : Unicode} (pg : page)
    (names : list pystr) (x : pystr) :
  westfield_scraper.extract_store_links pg = Value names → x ∈ names →
  x ≠ [] ∧
  ((∃ a t h, a ∈ anchors pg ∧ inner_text a = Value t
             ∧ get_attribute_href a = Value h
             ∧ candidate_filter (strip (or_empty t)) (or_empty h) = true
             ∧ x = westfield_scraper.clean_store_name (strip (or_empty t)))
   ∨ (accepted_primary westfield_scraper.clean_store_name pg = []
      ∧ ∃ el t, el ∈ candidates pg ∧ inner_text el = Value t
                ∧ x = westfield_scraper.clean_store_name (strip (or_empty t)))).
Proof. apply extract_names_provenance. Qed.

Lemma extracted_names_come_from_page_witness :
  westfield_scraper.extract_store_links two_anchor_page
  = Value [u "Nike"; u "Butik"]
  ∧ u "Nike" ∈ [u "Nike"; u "Butik"]
  ∧ u "Nike" ≠ [].
Proof.
  assert (westfield_scraper.extract_store_links two_anchor_page
          = Value [u "Nike"; u "Butik"]) as He by (vm_compute; reflexivity).
  assert (u "Nike" ∈ [u "Nike"; u "Butik"]) as Hin by (by left).
  split; [exact He|]. split; [exact Hin|].
  exact (proj1 (extracted_names_come_from_page two_anchor_page _ _ He Hin)).
Defined.

(** ** The rest of [webscraper_jan.py] *)

Section Jan.
Context {U : Unicode}.
Import webscraper_jan.



Lemma write_stores f names :
  foldl (fun f s => f ++ (s ++ [10%N])) f names = f ++ store_lines names.
Proof.
  revert f. induction names as [|s tl IH]; intros f; cbn.
  - by rewrite app_nil_r.
  - rewrite IH. unfold store_lines. cbn. by rewrite <- !app_assoc.
Qed.

Lemma write_loop rs : ∀ f,
  foldl write_step (f, false) rs
  = (f ++ concat ((fun r => [10%N] ++ mall r ++ [10%N; 10%N]
                            ++ store_lines (stores r)) <$> rs), false).
Proof.
  induction rs as [|r tl IH]; intros f; cbn.
  - by rewrite app_nil_r.
  - rewrite write_stores, IH. f_equal. cbn. rewrite <- !app_assoc. cbn.
    by rewrite <- !app_assoc.
Qed.

Lemma urls_from_file lines : ∀ acc,
  foldl (fun urls line =>
           match strip line with
           | [] => urls
           | line => urls ++ [line]
           end) acc lines
  = acc ++ filter (fun x => x ≠ []) (strip <$> lines).
Proof.
  induction lines as [|l tl IH]; intros acc.
  - cbn. by rewrite app_nil_r.
  - cbn [foldl]. rewrite IH, fmap_cons, filter_cons.
    destruct (strip l) as [|c s] eqn:E.
    + by rewrite decide_False by (by intros ?).
    + rewrite decide_True by done. by rewrite <- app_assoc.
Qed.

End Jan.

(** X14: [write_output_text] writes the store names of the first site,
    one per line, and for every later site an empty line, its mall name, an
    empty line and its store names; the mall name of the first site is not
    written. *)
Theorem write_output_text_blocks :
  webscraper_jan.write_output_text [] = []
  ∧ ∀ r rs,
      webscraper_jan.write_output_text (r :: rs)
      = store_lines (webscraper_jan.stores r)
        ++ concat ((fun r' => [10%N] ++ webscraper_jan.mall r' ++ [10%N; 10%N]
                              ++ store_lines (webscraper_jan.stores r')) <$> rs).
Proof.
  split; [done|]. intros r rs. unfold webscraper_jan.write_output_text. cbn.
  by rewrite write_stores, write_loop.
Qed.

(** X15: the URL list of [main] is never empty: it is the trimmed lines of
    the file that are not blank, then the positional URLs, and the default
    URL alone when there is neither. *)
Theorem main_urls_never_empty `{U : Unicode} (file : option (list pystr))
    (args_urls : list pystr) :
  webscraper_jan.main_urls file args_urls ≠ []
  ∧ webscraper_jan.main_urls file args_urls
    = match filter (fun x => x ≠ []) (strip <$> default [] file) ++ args_urls with
      | [] => [webscraper_jan.URL_DEFAULT]
      | l => l
      end.
Proof.
  assert (webscraper_jan.main_urls file args_urls
          = match filter (fun x => x ≠ []) (strip <$> default [] file)
                  ++ args_urls with
            | [] => [webscraper_jan.URL_DEFAULT]
            | l => l
            end) as Heq.
  { unfold webscraper_jan.main_urls.
    assert (match file with
            | Some fh =>
                foldl (fun urls line =>
                         match strip line with
                         | [] => urls
                         | line => urls ++ [line]
                         end) [] fh
            | None => []
            end = filter (fun x => x ≠ []) (strip <$> default [] file)) as ->.
    { destruct file as [fh|]; [|done]. by rewrite urls_from_file. }
    destruct args_urls as [|a l].
    - rewrite app_nil_r. by destruct (filter _ _).
    - by destruct (filter _ _ ++ a :: l). }
  split; [|done]. rewrite Heq.
  by destruct (filter _ _ ++ args_urls).
Qed.

(** ** No pipe in what [westfield_scraper.py] returns *)

Section NoPipe.
Context {U : Unicode}.

(** The end of [RE_PIPE]: on text without a line feed, [.*$] runs to the
    end of the text. *)
Lemma dot_star_to_end tl :
  ∀ p e (k : cont),
    (10%N ∉ tl) →
    rep_max false ANY 0 None p tl e
      (fun p1 s1 e1 => if at_match AT_END p1 s1 then k p1 s1 e1 else None)
    = match last tl with
      | Some c => k (Some c) [] e
      | None => k p [] e
      end.
Proof.
  induction tl as [|ch tl IH]; intros p e k Hnl; [done|].
  assert ((ch =? 10)%N = false) as Hch.
  { apply N.eqb_neq. intros ->. apply Hnl. by left. }
  assert (at_match AT_END p (ch :: tl) = false) as Hend.
  { cbn. by destruct tl. }
  cbn [rep_max]. rewrite Hend.
  assert (chr_match false ANY ch = true) as -> by (cbn; by rewrite Hch).
  cbn [andb hi_open pred fmap option_fmap option_map].
  rewrite IH by (intros ?; apply Hnl; by right).
  assert (match last tl with
          | Some c => k (Some c) [] e
          | None => k (Some ch) [] e
          end
          = match last (ch :: tl) with
            | Some c => k (Some c) [] e
            | None => k p [] e
            end) as ->.
  { destruct tl as [|c2 tl2]; [done|]. rewrite last_cons_cons.
    destruct (last (c2 :: tl2)) eqn:El; [done|]. by apply last_None in El. }
  by destruct (match last (ch :: tl) with Some _ => _ | None => _ end).
Qed.

Lemma rep_max_none ic c hi prev rest e k :
  rep_max ic c 0 hi prev rest e k = None → k prev rest e = None.
Proof.
  destruct rest as [|ch tl]; cbn; [done|].
  destruct (chr_match ic c ch && hi_open hi); [|done].
  by destruct (rep_max ic c 0 (pred <$> hi) (Some ch) tl e k).
Qed.

(** At a pipe, [RE_PIPE] has a match that is not empty. *)
Lemma match_at_pipe adv prev tl :
  (10%N ∉ tl) →
  ∃ n g, match_here RE_PIPE adv prev (124%N :: tl) = Some (S n, g).
Proof.
  intros Hnl. unfold match_here.
  set (kf := fun (_ : option N) (s1 : pystr) (e1 : groups) =>
               if adv && (length s1 =? length (124%N :: tl)) then None
               else Some (s1, e1)).
  assert (∀ res, rmatch (ignorecase RE_PIPE) (body RE_PIPE) prev (124%N :: tl) [] kf
                 = Some res → length res.1 ≤ length tl) as Hshort.
  { intros [s1 e1] Hres. pose proof Hres as Hres0.
    apply (rmatch_inv (124%N :: tl)) in Hres as (p1 & s2 & e2 & Hs2 & _ & Hk);
      [|done|constructor].
    unfold kf in Hk. destruct (adv && _) eqn:Ea; [done|]. injection Hk as <- <-.
    cbn. destruct Hs2 as [pre Hpre].
    destruct pre as [|c pre].
    - (* the whole text would be left: the pattern has taken no pipe *)
      exfalso. cbn in Hpre. subst s2. clear Ea.
      revert Hres0. cbn [ignorecase body RE_PIPE seq star rmatch].
      intros Hres. apply rep_max_inv in Hres as (p2 & s3 & Hs3 & Hres).
      destruct s3 as [|c3 s3]; [done|]. destruct (chr_match false _ c3); [|done].
      apply rep_max_inv in Hres as (p4 & s4 & Hs4 & Hres).
      destruct (at_match AT_END p4 s4); [|done].
      unfold kf in Hres. destruct (adv && _); [done|]. injection Hres as Hres.
      apply suffix_length in Hs3, Hs4. rewrite Hres in Hs4. cbn in *. lia.
    - apply (f_equal length) in Hpre. rewrite length_app in Hpre. cbn in *. lia. }
  destruct (rmatch _ _ _ _ _ _) as [[s1 e1]|] eqn:E.
  - specialize (Hshort _ eq_refl). cbn in Hshort. exists (length tl - length s1), e1.
    cbn. do 2 f_equal. lia.
  - exfalso. revert E. cbn [ignorecase body RE_PIPE seq star rmatch].
    intros E%rep_max_none. revert E. cbn [rmatch].
    assert (chr_match false (LITERAL (ord "|")) 124%N = true) as -> by reflexivity.
    rewrite dot_star_to_end by done. unfold kf.
    destruct (last tl); by rewrite andb_false_r.
Qed.

Lemma sub_pipe_no_pipe rest :
  ∀ skip prev, (10%N ∉ rest) → 124%N ∉ sub_from RE_PIPE [] skip prev rest.
Proof.
  induction rest as [|ch tl IH]; intros skip prev Hnl.
  - assert (sub_from RE_PIPE [] skip prev [] = []) as ->; [|apply not_elem_of_nil].
    apply sublist_nil_r, sub_from_delete_sublist.
  - assert (10%N ∉ tl) as Htl by (intros ?; apply Hnl; by right).
    assert (match_here RE_PIPE false prev (ch :: tl) = None ∨
            (∃ g, match_here RE_PIPE false prev (ch :: tl) = Some (0, g)) →
            ch ≠ 124%N) as Hch.
    { intros Hm ->. destruct (match_at_pipe false prev tl Htl) as (n & g & E).
      rewrite E in Hm. by destruct Hm as [?|[? ?]]. }
    destruct skip as [|n]; cbn [sub_from]; [|cbn; by apply IH].
    destruct (match_here RE_PIPE false prev (ch :: tl)) as [[[|n] g]|] eqn:E; cbn.
    + destruct (match_here RE_PIPE true prev (ch :: tl)) as [[[|n] g']|]; cbn;
        try (by apply IH);
        (apply not_elem_of_cons; split; [symmetry; apply Hch; eauto|by apply IH]).
    + by apply IH.
    + apply not_elem_of_cons. split; [symmetry; apply Hch; eauto|by apply IH].
Qed.

Lemma first_eight_no_line_feed raw :
  isspace 10%N = true → 10%N ∉ first_eight raw.
Proof.
  intros Hsp. unfold first_eight. destruct raw as [|c tl] eqn:E; [apply not_elem_of_nil|].
  rewrite <- E. cbv zeta. intros Hin.
  assert (10%N ∈ re_sub RE_SPACES (u " ")
            (re_sub RE_LABEL []
               (re_sub RE_DASH []
                  (re_sub RE_STATUS []
                     (re_sub RE_PLAN_NUM [] (re_sub RE_PARENS [] (strip raw)))))))
    as Hsq.
  { eapply elem_of_sublist; [exact Hin|].
    etrans; [apply strip_sublist|]. etrans; [apply re_sub_delete_sublist|].
    apply strip_sublist. }
  unfold RE_SPACES in Hsq. rewrite re_sub_plus in Hsq.
  change (u " ") with [32%N] in Hsq.
  apply squeeze_elem in Hsq as [[_ Hn]|?]; [|done].
  cbn in Hn. rewrite Hsp in Hn. done.
Qed.

Lemma westfield_no_pipe raw :
  isspace 10%N = true → 124%N ∉ westfield_scraper.clean_store_name raw.
Proof.
  intros Hsp Hin. rewrite westfield_first_eight in Hin. cbv zeta in Hin.
  apply (sub_pipe_no_pipe (first_eight raw) 0 None
           (first_eight_no_line_feed raw Hsp)).
  eapply elem_of_sublist; [exact Hin|].
  set (s := re_sub RE_NUMBER [] _).
  assert (s `sublist_of` re_sub RE_PIPE [] (first_eight raw)) as Hs.
  { unfold s. etrans; [apply re_sub_delete_sublist|].
    etrans; [apply re_sub_delete_sublist|]. apply re_sub_delete_sublist. }
  destruct (re_match RE_HALVES s) as [m|] eqn:E; [|done].
  etrans; [apply strip_sublist|]. etrans; [|exact Hs].
  apply (re_match_group_sublist _ _ _ E).
Qed.

End NoPipe.

(** X16: with the line feed among the white space, as in Python, the
    normaliser of [westfield_scraper.py] never returns a pipe character. *)
Theorem westfield_normalize_no_pipe `{U : Unicode} (raw : pystr) :
  isspace 10%N = true →
  124%N ∉ westfield_scraper.clean_store_name raw.
Proof. apply westfield_no_pipe. Qed.

Lemma westfield_normalize_no_pipe_witness :
  isspace 10%N = true
  ∧ 124%N ∉ westfield_scraper.clean_store_name (u "Name | Location").
Proof.
  split; [reflexivity|].
  apply (westfield_normalize_no_pipe (u "Name | Location")). reflexivity.
Defined.

(** ** Candidate extraction with its page queries *)

Section ExtractLiveFacts.
Context {U : Unicode}.
Variable clean : pystr → pystr.

Local Abbreviation first_seen := (keep_first (A := list N) id (fun _ => true) ∅).

Lemma first_seen_elem (l : list pystr) x : x ∈ first_seen l ↔ x ∈ l.
Proof.
  split; [by intros (? & _)%keep_first_elem|].
  intros Hx.
  pose proof (keep_first_complete id (fun _ => true) ∅ _ x Hx eq_refl) as Hc.
  rewrite list_fmap_id in Hc. apply Hc. set_solver.
Qed.

Lemma extract_names_live_value an cs t :
  extract_names_live clean (LivePage (Value an) (Value cs) t)
  = extract_names clean (Page an cs t).
Proof.
  unfold extract_names_live, extract_names. cbn.
  destruct (for_each (anchor_step clean) ([], ∅) an) as [[names seen]|]; [|done].
  cbn. by destruct names.
Qed.

Lemma extract_names_live_spec lp :
  extract_names_live clean lp =
  match query_anchors lp with
  | Exception => Exception
  | Value an =>
      match accepted_primary clean (Page an [] (live_title lp)) with
      | [] =>
          match query_candidates lp with
          | Exception => Exception
          | Value cs =>
              Value (first_seen (accepted_fallback clean (Page an cs (live_title lp))))
          end
      | l => Value (first_seen l)
      end
  end.
Proof.
  unfold extract_names_live, accepted_primary, accepted_fallback.
  destruct (query_anchors lp) as [an|]; [|done]. cbn.
  rewrite anchor_loop. cbn. rewrite (add_name_loop clean). cbn.
  destruct (first_seen _) as [|n ns] eqn:E.
  - apply keep_first_nil in E. rewrite E. cbn.
    destruct (query_candidates lp) as [cs|]; [|done]. cbn.
    rewrite fallback_loop. cbn. by rewrite (add_name_loop clean).
  - cbn. rewrite <- E.
    by destruct (filter _ (omap (anchor_offer clean) an)).
Qed.

Lemma accepted_primary_skip pre a post t :
  inner_text a = Exception ∨ get_attribute_href a = Exception →
  accepted_primary clean (Page (pre ++ a :: post) [] t)
  = accepted_primary clean (Page (pre ++ post) [] t).
Proof.
  intros Ha. unfold accepted_primary. cbn.
  rewrite !omap_app. cbn. by rewrite (anchor_offer_raises clean a Ha).
Qed.

Lemma accepted_fallback_skip an pre el post t :
  inner_text el = Exception →
  accepted_fallback clean (Page an (pre ++ el :: post) t)
  = accepted_fallback clean (Page an (pre ++ post) t).
Proof.
  intros Ha. unfold accepted_fallback. cbn.
  rewrite !omap_app. cbn. unfold fallback_offer at 2. by rewrite Ha.
Qed.

Lemma extract_names_live_contract :
  extraction_contract clean (extract_names_live clean).
Proof.
  unfold extraction_contract. repeat apply conj.
  - intros pre a post qc t Ha. rewrite !extract_names_live_spec.
    cbn [query_anchors query_candidates live_title].
    rewrite (accepted_primary_skip pre a post t Ha).
    destruct (accepted_primary clean (Page (pre ++ post) [] t)); [|done].
    by destruct qc.
  - intros qa pre el post t Ha. rewrite !extract_names_live_spec.
    cbn [query_anchors query_candidates live_title].
    destruct qa as [an|]; [|done].
    destruct (accepted_primary clean (Page an [] t)); [|done].
    by rewrite (accepted_fallback_skip an pre el post t Ha).
  - intros an qc t Hne. rewrite extract_names_live_spec.
    cbn [query_anchors query_candidates live_title].
    destruct (accepted_primary clean (Page an [] t)) as [|y l] eqn:E; [done|].
    eexists. split; [done|]. apply first_seen_elem.
  - intros an cs t He. rewrite extract_names_live_spec.
    cbn [query_anchors query_candidates live_title]. rewrite He.
    eexists. split; [done|]. apply first_seen_elem.
  - intros lp. rewrite extract_names_live_spec.
    destruct (query_anchors lp) as [an|]; [|by split; [left|]].
    destruct (accepted_primary clean (Page an [] (live_title lp))) as [|y l] eqn:E.
    + destruct (query_candidates lp) as [cs|].
      * split; [done|]. by intros [?|(? & _ & _ & ?)].
      * split; [|done]. intros _. right. by exists an.
    + split; [done|]. intros [?|(an' & [= <-] & He & _)]; [done|].
      by rewrite E in He.
Qed.

End ExtractLiveFacts.

(** C9, as amended: an element whose text or href cannot be read is
    passed over as if it were not on the page; the fallback scan runs
    exactly when the anchor pass gives no name, an anchor that passes the
    filter and is normalised to the empty string giving none: when the
    anchors give a name the result is their names whatever the fallback
    query would do, and when they give none it is the names of the fallback
    scan; and the extraction raises exactly when a page query that it
    makes raises, never for an element.  This holds of
    [extract_store_links] and of [extract_store_names_from_page], which on
    a page whose queries return are the functions of the other
    statements. *)
Theorem extraction_skips_and_falls_back `{U : Unicode} :
  extraction_contract westfield_scraper.clean_store_name
    westfield_scraper.extract_store_links_live
  ∧ extraction_contract webscraper_jan.clean_store_name
      webscraper_jan.extract_store_names_from_page_live
  ∧ (∀ an cs t,
       westfield_scraper.extract_store_links_live (LivePage (Value an) (Value cs) t)
       = westfield_scraper.extract_store_links (Page an cs t))
  ∧ (∀ an cs t,
       webscraper_jan.extract_store_names_from_page_live
         (LivePage (Value an) (Value cs) t)
       = webscraper_jan.extract_store_names_from_page (Page an cs t)).
Proof.
  split; [|split; [|split]].
  - apply extract_names_live_contract.
  - apply extract_names_live_contract.
  - intros. apply extract_names_live_value.
  - intros. apply extract_names_live_value.
Qed.

(** C9, as stated, fails twice.  The anchor ["Butik:"] passes the filter,
    so the anchor pass has accepted a candidate, and the fallback scan runs
    all the same, because the text is normalised to the empty string: the
    result is the name of the fallback element.  And the extraction raises
    when its page query raises. *)
Lemma fallback_runs_after_filter_accept :
  candidate_filter (strip (u "Butik:")) (u "/x") = true
  ∧ westfield_scraper.clean_store_name (strip (u "Butik:")) = []
  ∧ westfield_scraper.extract_store_links label_only_page = Value [u "Zara"]
  ∧ westfield_scraper.extract_store_links
      (Page (anchors label_only_page) [] (title label_only_page)) = Value []
  ∧ westfield_scraper.extract_store_links_live broken_page = Exception.
Proof. repeat split; vm_compute; reflexivity. Qed.

(** ** The order in which the exporter reads the files *)

Lemma str_le_refl a : str_le a a = true.
Proof. induction a as [|x a IH]; [done|]. cbn. by rewrite N.ltb_irrefl, N.eqb_refl. Qed.












(** ** The scraping loop of [webscraper_jan] *)

Section Scrape.
Context {U : Unicode}.
Import webscraper_jan.




End Scrape.

